(** * dgit: references, tree writer, diff-files and commit

    A shallow embedding of the Go sources of dgit (commit.go,
    git/showref.go, the sources of [DiffFiles] and of [RefSpec], and the
    table of git/writetree_test.go) together with the statements the
    natural-language specification makes about them.

    Go strings are byte strings: they are modelled by [string], whose
    characters are the 256 values of [ascii].  Calls into the file system
    and into parts of the repository that are not among the sources are
    fields of a record describing the environment of a run. *)

From Stdlib Require Import List Bool Arith NArith ZArith Lia.
From Stdlib Require Import Ascii String DecimalString.
From Stdlib Require Import Permutation.
Import ListNotations.

Local Open Scope list_scope.
Local Open Scope string_scope.

(** ** Go strings *)

Definition NUL : ascii := Ascii.zero.

(** [s[n:]] for [n <= len(s)]. *)
Fixpoint drop (n : nat) (s : string) : string :=
  match n, s with
  | O, _ => s
  | S _, EmptyString => EmptyString
  | S n', String _ s' => drop n' s'
  end.

(** [s[:n]] for [n <= len(s)]. *)
Fixpoint take (n : nat) (s : string) : string :=
  match n, s with
  | O, _ => EmptyString
  | S _, EmptyString => EmptyString
  | S n', String c s' => String c (take n' s')
  end.

(** strings.HasPrefix:
    [len(s) >= len(prefix) && s[:len(prefix)] == prefix]. *)
Definition HasPrefix (s pre : string) : bool :=
  (String.length pre <=? String.length s)%nat
  && String.eqb (take (String.length pre) s) pre.

(** strings.HasSuffix:
    [len(s) >= len(suffix) && s[len(s)-len(suffix):] == suffix]. *)
Definition HasSuffix (s suf : string) : bool :=
  (String.length suf <=? String.length s)%nat
  && String.eqb (drop (String.length s - String.length suf) s) suf.

(** strings.TrimPrefix: [s] without the leading [prefix], or [s] itself. *)
Definition TrimPrefix (s pre : string) : string :=
  if HasPrefix s pre then drop (String.length pre) s else s.

(** strings.TrimSuffix: [s] without the trailing [suffix], or [s] itself. *)
Definition TrimSuffix (s suf : string) : string :=
  if HasSuffix s suf then take (String.length s - String.length suf) s else s.

Definition bytes (l : list N) : string :=
  string_of_list_ascii (List.map ascii_of_N l).

(** The table [asciiSpace] of package strings: tab, newline, vertical tab,
    form feed, carriage return and space. *)
Definition asciiSpace (c : ascii) : bool :=
  let n := N_of_ascii c in
  ((n =? 9) || (n =? 10) || (n =? 11) || (n =? 12) || (n =? 13) || (n =? 32))%N.

(** The UTF-8 encodings of the runes beyond ASCII for which
    [unicode.IsSpace] holds: U+0085, U+00A0, U+1680, U+2000 to U+200A,
    U+2028, U+2029, U+202F, U+205F and U+3000. *)
Definition unicodeSpaces : list string :=
  List.map bytes
    [ [0xC2; 0x85]; [0xC2; 0xA0]; [0xE1; 0x9A; 0x80];
      [0xE2; 0x80; 0x80]; [0xE2; 0x80; 0x81]; [0xE2; 0x80; 0x82];
      [0xE2; 0x80; 0x83]; [0xE2; 0x80; 0x84]; [0xE2; 0x80; 0x85];
      [0xE2; 0x80; 0x86]; [0xE2; 0x80; 0x87]; [0xE2; 0x80; 0x88];
      [0xE2; 0x80; 0x89]; [0xE2; 0x80; 0x8A]; [0xE2; 0x80; 0xA8];
      [0xE2; 0x80; 0xA9]; [0xE2; 0x80; 0xAF]; [0xE2; 0x81; 0x9F];
      [0xE3; 0x80; 0x80] ]%N.

Definition isUnicodeSpace (u : string) : bool :=
  existsb (String.eqb u) unicodeSpaces.

(** The width in bytes of the space rune [s] starts with, or 0.  As in
    [strings.TrimSpace], a byte below [utf8.RuneSelf] is looked up in
    [asciiSpace] and anything else is decoded as a rune. *)
Definition leadingSpace (s : string) : nat :=
  match s with
  | EmptyString => 0
  | String c _ =>
      if asciiSpace c then 1
      else if (N_of_ascii c <? 128)%N then 0
      else if isUnicodeSpace (take 2 s) then 2
      else if isUnicodeSpace (take 3 s) then 3
      else 0
  end.

(** [s[len(s)-1]], when [s] is not empty. *)
Fixpoint lastByte (s : string) : option ascii :=
  match s with
  | EmptyString => None
  | String c EmptyString => Some c
  | String _ s' => lastByte s'
  end.

(** The width in bytes of the space rune [s] ends with, or 0. *)
Definition trailingSpace (s : string) : nat :=
  let n := String.length s in
  match lastByte s with
  | None => 0
  | Some c =>
      if asciiSpace c then 1
      else if (N_of_ascii c <? 128)%N then 0
      else if (2 <=? n)%nat && isUnicodeSpace (drop (n - 2) s) then 2
      else if (3 <=? n)%nat && isUnicodeSpace (drop (n - 3) s) then 3
      else 0
  end.

Fixpoint trimLeft (fuel : nat) (s : string) : string :=
  match fuel with
  | O => s
  | S fuel' =>
      match leadingSpace s with
      | O => s
      | k => trimLeft fuel' (drop k s)
      end
  end.

Fixpoint trimRight (fuel : nat) (s : string) : string :=
  match fuel with
  | O => s
  | S fuel' =>
      match trailingSpace s with
      | O => s
      | k => trimRight fuel' (take (String.length s - k) s)
      end
  end.

(** strings.TrimSpace: [s] without its leading and trailing white space.
    Every step removes at least one byte, so [len(s)] steps are enough on
    either side. *)
Definition TrimSpace (s : string) : string :=
  trimRight (String.length s) (trimLeft (String.length s) s).

(** ** Outcomes of a Go call

    A Go function returning [(T, error)] yields a value or an error; a
    run-time panic (a nil dereference, an index out of range) in the code
    of the sources ends the call with neither.  An [error] is modelled by
    its message. *)

Definition error : Type := string.

(** What a call into a library, or into a part of the package that is not
    among the sources, gives back: a value or an error. *)
Inductive result (A : Type) : Type :=
| Val (a : A)
| Fail (e : error).

Arguments Val {A} a.
Arguments Fail {A} e.

Inductive outcome (A : Type) : Type :=
| Ok (a : A)
| Err (e : error)
| Panic.

Arguments Ok {A} a.
Arguments Err {A} e.
Arguments Panic {A}.

Definition call {A : Type} (r : result A) : outcome A :=
  match r with
  | Val a => Ok a
  | Fail e => Err e
  end.

Definition bind {A B : Type} (m : outcome A) (k : A -> outcome B) : outcome B :=
  match m with
  | Ok a => k a
  | Err e => Err e
  | Panic => Panic
  end.

Notation "x <- m ;; k" := (bind m (fun x => k))
  (at level 61, m at next level, right associativity).

(** ** Object identity *)

(** [type Sha1 [20]byte]: the twenty raw bytes. *)
Definition Sha1 : Type := string.

Definition zeroSha1 : Sha1 :=
  String NUL (String NUL (String NUL (String NUL (String NUL
  (String NUL (String NUL (String NUL (String NUL (String NUL
  (String NUL (String NUL (String NUL (String NUL (String NUL
  (String NUL (String NUL (String NUL (String NUL (String NUL
   EmptyString))))))))))))))))))).

Definition hexdigit (n : N) : ascii :=
  if (n <? 10)%N then ascii_of_N (48 + n) else ascii_of_N (87 + n).

(** The printed form of a [Sha1]: forty lowercase hexadecimal digits. *)
Fixpoint hex (s : string) : string :=
  match s with
  | EmptyString => EmptyString
  | String c s' =>
      let n := N_of_ascii c in
      String (hexdigit (n / 16)) (String (hexdigit (n mod 16)) (hex s'))
  end.

(** ** SHA-1 *)

Module SHA1.

Local Open Scope N_scope.

Definition w32 (x : N) : N := x mod 2 ^ 32.

Definition add32 (x y : N) : N := w32 (x + y).

Definition rotl (n x : N) : N :=
  N.lor (w32 (N.shiftl x n)) (N.shiftr x (32 - n)).

Definition not32 (x : N) : N := N.lxor x 0xFFFFFFFF.

Definition Ch (x y z : N) : N := N.lxor (N.land x y) (N.land (not32 x) z).
Definition Parity (x y z : N) : N := N.lxor (N.lxor x y) z.
Definition Maj (x y z : N) : N :=
  N.lxor (N.lxor (N.land x y) (N.land x z)) (N.land y z).

Definition f (t : nat) (x y z : N) : N :=
  if (t <? 20)%nat then Ch x y z
  else if (t <? 40)%nat then Parity x y z
  else if (t <? 60)%nat then Maj x y z
  else Parity x y z.

Definition K (t : nat) : N :=
  if (t <? 20)%nat then 0x5A827999
  else if (t <? 40)%nat then 0x6ED9EBA1
  else if (t <? 60)%nat then 0x8F1BBCDC
  else 0xCA62C1D6.

Definition H0 : N * N * N * N * N :=
  (0x67452301, 0xEFCDAB89, 0x98BADCFE, 0x10325476, 0xC3D2E1F0).

(** A number as [n] big-endian bytes. *)
Fixpoint be_bytes (n : nat) (x : N) : list N :=
  match n with
  | O => []
  | S n' => (x / 256 ^ N.of_nat n') mod 256 :: be_bytes n' x
  end.

(** The message followed by the bit 1, zeros up to 56 modulo 64 and the
    length in bits on eight bytes. *)
Definition pad (msg : list N) : list N :=
  let l := N.of_nat (List.length msg) in
  let k := (119 - l mod 64) mod 64 in
  (msg ++ (0x80 :: List.repeat 0 (N.to_nat k)) ++ be_bytes 8 (8 * l))%list.

Fixpoint words (n : nat) (bs : list N) : list N :=
  match n, bs with
  | S n', b0 :: b1 :: b2 :: b3 :: bs' =>
      (((b0 * 256 + b1) * 256 + b2) * 256 + b3) :: words n' bs'
  | _, _ => []
  end.

(** The message schedule, most recent word first: [ws] holds
    W(t-1), W(t-2), ... *)
Fixpoint schedule (n : nat) (ws : list N) : list N :=
  match n with
  | O => ws
  | S n' =>
      let x := N.lxor (N.lxor (nth 2 ws 0) (nth 7 ws 0))
                      (N.lxor (nth 13 ws 0) (nth 15 ws 0)) in
      schedule n' (rotl 1 x :: ws)
  end.

Fixpoint rounds (t : nat) (ws : list N) (s : N * N * N * N * N)
  : N * N * N * N * N :=
  match ws with
  | [] => s
  | wt :: ws' =>
      let '(a, b, c, d, e) := s in
      let T := add32 (add32 (add32 (add32 (rotl 5 a) (f t b c d)) e) (K t)) wt in
      rounds (S t) ws' (T, a, rotl 30 b, c, d)
  end.

Definition block (h : N * N * N * N * N) (blk : list N) : N * N * N * N * N :=
  let ws := List.rev (schedule 64 (List.rev (words 16 blk))) in
  let '(h0, h1, h2, h3, h4) := h in
  let '(a, b, c, d, e) := rounds 0 ws h in
  (add32 h0 a, add32 h1 b, add32 h2 c, add32 h3 d, add32 h4 e).

Fixpoint blocks (n : nat) (h : N * N * N * N * N) (bs : list N)
  : N * N * N * N * N :=
  match n with
  | O => h
  | S n' => blocks n' (block h (firstn 64 bs)) (skipn 64 bs)
  end.

Definition digest (msg : list N) : list N :=
  let p := pad msg in
  let '(h0, h1, h2, h3, h4) := blocks (List.length p / 64) H0 p in
  (be_bytes 4 h0 ++ be_bytes 4 h1 ++ be_bytes 4 h2 ++ be_bytes 4 h3
   ++ be_bytes 4 h4)%list.

Definition bytes_of_string (s : string) : list N :=
  List.map N_of_ascii (list_ascii_of_string s).

Definition sum (s : string) : Sha1 :=
  bytes (digest (bytes_of_string s)).

End SHA1.

(** ** File modes, index entries and tree entries *)

(** [type EntryMode uint32]. *)
Definition EntryMode : Type := N.

(** Modelled from the spec: the declarations of the mode constants are not
    among the sources; section 2.3 of the specification gives their values
    in octal: Blob 100644, Exec 100755, Symlink 120000, GitLink 160000 and
    Tree 040000. *)
Definition ModeBlob : EntryMode := 33188%N.
Definition ModeExec : EntryMode := 33261%N.
Definition ModeSymlink : EntryMode := 40960%N.
Definition ModeCommit : EntryMode := 57344%N.
Definition ModeTree : EntryMode := 16384%N.

Definition IndexPath : Type := string.

(** The fields of [FixedIndexEntry] the sources read.  The stat metadata
    is only consulted through [CompareStat]. *)
Record FixedIndexEntry : Type := mkFixedIndexEntry {
  Mode : EntryMode;
  Fsize : N;
  idxSha1 : Sha1
}.

Record IndexEntry : Type := mkIndexEntry {
  PathName : IndexPath;
  Fixed : FixedIndexEntry
}.

(** [TreeEntry{Sha1, FileMode}]. *)
Record TreeEntry : Type := mkTreeEntry {
  teSha1 : Sha1;
  FileMode : EntryMode
}.

(** The zero value [TreeEntry{}]. *)
Definition emptyTreeEntry : TreeEntry := mkTreeEntry zeroSha1 0%N.

(** ** Hashing and the object store *)

Definition decimal (n : nat) : string :=
  NilZero.string_of_uint (Nat.to_uint n).

Fixpoint octal_digits (fuel : nat) (n : N) (acc : string) : string :=
  match fuel with
  | O => acc
  | S fuel' =>
      let acc' := String (ascii_of_N (48 + n mod 8)) acc in
      if (n / 8 =? 0)%N then acc' else octal_digits fuel' (n / 8) acc'
  end.

(** Go's [%o]: octal digits without leading zeros. *)
Definition octal (n : N) : string :=
  octal_digits (S (N.to_nat (N.log2 n))) n EmptyString.

(** Modelled from the spec: [HashReader] and the object framing are not among
    the sources.  Section 3: a hash is the SHA-1 of the payload with the
    header ["<type> <length>\0"] prepended. *)
Definition hash_object (kind payload : string) : Sha1 :=
  SHA1.sum (kind ++ " " ++ decimal (String.length payload)
            ++ String NUL payload).

(** Modelled from the spec: [HashReader(kind, stream)] returns the hash and
    the number of bytes copied (section 4.1). *)
Definition HashReader (kind content : string) : result (Sha1 * nat) :=
  Val (hash_object kind content, String.length content).

(** [hashString] of writetree_test.go. *)
Definition hashString (str : string) : outcome Sha1 :=
  match HashReader "blob" str with
  | Val (s, _) => Ok s
  | Fail _ => Panic
  end.

(** Modelled from the spec: the object store adapter of section 4.2, a map
    from hashes to typed payloads. *)
Definition store : Type := list (Sha1 * (string * string)).

Definition store_exists (st : store) (h : Sha1) : bool :=
  existsb (fun o => String.eqb (fst o) h) st.

(** [write(kind, bytes) -> (Hash, already_existed)], idempotent by
    content. *)
Definition store_write (st : store) (kind payload : string)
  : store * Sha1 * bool :=
  let h := hash_object kind payload in
  if store_exists st h then (st, h, true)
  else ((h, (kind, payload)) :: st, h, false).

(** ** The tree writer

    Modelled from the spec: [writeIndexEntries] is not among the sources, only
    its test table is.  The definitions below follow section 4.6. *)

Record TreeItem : Type := mkTreeItem {
  itemMode : EntryMode;
  itemName : string;
  itemId : Sha1;
  itemIsTree : bool
}.

(** ["<mode-octal> <name>\0<20-byte-hash>"]. *)
Definition encode_item (i : TreeItem) : string :=
  octal (itemMode i) ++ " " ++ itemName i ++ String NUL (itemId i).

(** Subtree names compare as if they ended in a slash. *)
Definition sort_key (i : TreeItem) : string :=
  if itemIsTree i then itemName i ++ "/" else itemName i.

Fixpoint insert_item (i : TreeItem) (l : list TreeItem) : list TreeItem :=
  match l with
  | [] => [i]
  | x :: l' =>
      if String.leb (sort_key i) (sort_key x) then i :: l
      else x :: insert_item i l'
  end.

Definition sort_items (l : list TreeItem) : list TreeItem :=
  fold_right insert_item [] l.

(** The first component of a path and, when the path goes on, the rest. *)
Fixpoint split_component (s : string) : string * option string :=
  match s with
  | EmptyString => (EmptyString, None)
  | String c s' =>
      if Ascii.eqb c "/" then (EmptyString, Some s')
      else let (a, r) := split_component s' in (String c a, r)
  end.

Definition relative (prefix : string) (e : IndexEntry) : string :=
  drop (String.length prefix) (PathName e).

Definition is_file_at (prefix : string) (e : IndexEntry) : bool :=
  match snd (split_component (relative prefix e)) with
  | None => true
  | Some _ => false
  end.

Definition is_under (prefix name : string) (e : IndexEntry) : bool :=
  match split_component (relative prefix e) with
  | (c, Some _) => String.eqb c name
  | (_, None) => false
  end.

(** The names of the subdirectories, in order of first appearance. *)
Fixpoint subtree_names (prefix : string) (es : list IndexEntry)
                       (seen : list string) : list string :=
  match es with
  | [] => []
  | e :: es' =>
      match split_component (relative prefix e) with
      | (c, Some _) =>
          if existsb (String.eqb c) seen then subtree_names prefix es' seen
          else c :: subtree_names prefix es' (c :: seen)
      | (_, None) => subtree_names prefix es' seen
      end
  end.

Definition file_item (prefix : string) (e : IndexEntry) : TreeItem :=
  mkTreeItem (Mode (Fixed e)) (fst (split_component (relative prefix e)))
             (idxSha1 (Fixed e)) false.

Fixpoint write_subtrees
    (rec : store -> string -> list IndexEntry -> option (store * Sha1))
    (st : store) (prefix : string) (es : list IndexEntry)
    (names : list string) : option (store * list TreeItem) :=
  match names with
  | [] => Some (st, [])
  | n :: names' =>
      match rec st (prefix ++ n ++ "/") (filter (is_under prefix n) es) with
      | None => None
      | Some (st1, id) =>
          match write_subtrees rec st1 prefix es names' with
          | None => None
          | Some (st2, items) => Some (st2, mkTreeItem ModeTree n id true :: items)
          end
      end
  end.

Fixpoint write_tree_at (fuel : nat) (st : store) (prefix : string)
                       (es : list IndexEntry) : option (store * Sha1) :=
  match fuel with
  | O => None
  | S fuel' =>
      let files := List.map (file_item prefix) (filter (is_file_at prefix) es) in
      match write_subtrees (write_tree_at fuel') st prefix es
                           (subtree_names prefix es []) with
      | None => None
      | Some (st1, trees) =>
          let payload :=
            String.concat "" (List.map encode_item (sort_items (files ++ trees)%list)) in
          let '(st2, id, _) := store_write st1 "tree" payload in
          Some (st2, id)
      end
  end.

(** A path of [n] bytes has fewer than [n] directory levels. *)
Definition depth_bound (es : list IndexEntry) : nat :=
  S (list_max (List.map (fun e => String.length (PathName e)) es)).

Definition tree_writer (st : store) (prefix : string) (es : list IndexEntry)
  : option (store * Sha1) :=
  write_tree_at (depth_bound es) st prefix es.

(** The rows of the table of [TestWriteIndex]. *)
Definition blob_entry (path content : string) (mode : EntryMode)
  : outcome IndexEntry :=
  s <- hashString content ;;
  Ok (mkIndexEntry path
        (mkFixedIndexEntry mode (N.of_nat (String.length content)) s)).

Fixpoint sequence {A : Type} (l : list (outcome A)) : outcome (list A) :=
  match l with
  | [] => Ok []
  | m :: l' => a <- m ;; r <- sequence l' ;; Ok (a :: r)
  end.

Definition newline : string := String (ascii_of_N 10) EmptyString.

Definition index_sandwich : outcome (list IndexEntry) :=
  sequence [ blob_entry "bar/bar" ("bar" ++ newline) ModeBlob;
             blob_entry "baz" ("baz" ++ newline) ModeBlob;
             blob_entry "foo/foo" ("foo" ++ newline) ModeBlob ].

(** One row of the test: the printed tree id of the index, written into a
    fresh, empty store. *)
Definition run_row (index : outcome (list IndexEntry)) : outcome (option string) :=
  es <- index ;;
  Ok (option_map (fun r => hex (snd r)) (tree_writer [] "" es)).

(** ** The client

    What a run observes of the repository and of the parts of the package
    that are not among the sources.  Every field is a call the sources make;
    the file system is not written by any of the functions below, so each
    call is a function of its arguments. *)

Definition File : Type := string.
Definition CommitID : Type := Sha1.
Definition RefSpec : Type := string.

(** [os.FileInfo]: the mode bits and the size [Lstat] reports. *)
Record FileInfo : Type := mkFileInfo {
  st_mode : N;
  st_size : Z
}.

Record Client : Type := mkClient {
  (** [c.GitDir.String()] *)
  GitDir : string;
  (** [c.GitDir.File(f)] *)
  GitDirFile : File -> File;
  (** [f.Exists()] *)
  Exists : File -> bool;
  (** [f.Lstat()] *)
  Lstat : File -> result FileInfo;
  (** [f.ReadAll()] *)
  ReadAll : File -> string * option error;
  (** [ioutil.ReadFile(name)] *)
  ReadFile : string -> result string;
  (** [ioutil.ReadDir(name)]: the names of the entries, sorted. *)
  ReadDir : string -> result (list string);
  (** [filepath.Walk(root, fn)]: the calls it makes to [fn] for as long as
      [fn] returns nil, each with its path and with [info.IsDir()], or
      [None] when [info] is nil. *)
  Walk : string -> list (string * option bool);
  (** [c.GetHeadCommit()] *)
  GetHeadCommit : result CommitID;
  (** [SymbolicRefGet(c, SymbolicRefOptions{}, SymbolicRef(name))] *)
  SymbolicRefGet : string -> result RefSpec;
  (** [r.Sha1(c)] on the result of [SymbolicRefGet] *)
  RefSpecSha1 : RefSpec -> result Sha1;
  (** [Sha1FromString(s)] *)
  Sha1FromString : string -> result Sha1;
  (** [id.Type(c)] *)
  TypeOf : Sha1 -> string;
  (** [RevParse(c, RevParseOptions{}, args)]: the [Id] of each parsed
      revision. *)
  RevParse : list string -> result (list Sha1);
  (** [LsFiles(c, opts, paths)] with Cached, Deleted and Modified set. *)
  LsFiles : list File -> result (list IndexEntry);
  (** [p.FilePath(c)] *)
  FilePath : IndexPath -> result File;
  (** [idx.CompareStat(f)]: nil, or the reason of the mismatch. *)
  CompareStat : IndexEntry -> File -> option error;
  (** [HashFile("blob", name)] *)
  HashFile : string -> result Sha1
}.

(** ** showref.go *)

Record Ref : Type := mkRef {
  Name : string;
  Value : Sha1
}.

Definition Matches (r : Ref) (pattern : string) : bool :=
  String.eqb (Name r) pattern || HasSuffix (Name r) ("/" ++ pattern).

Record ShowRefOptions : Type := mkShowRefOptions {
  IncludeHead : bool;
  Tags : bool;
  Heads : bool;
  Dereference : bool;
  Sha1Only : bool;
  Verify : bool;
  Abbrev : Z;
  Quiet : bool;
  ExcludeExisting : string
}.

Definition parseRef (c : Client) (filename : string) : outcome Ref :=
  let refname := TrimPrefix filename "/" in
  data <- call (ReadFile c (GitDirFile c refname)) ;;
  if HasPrefix data "ref: " then
    deref <- call (SymbolicRefGet c refname) ;;
    sha1 <- call (RefSpecSha1 c deref) ;;
    Ok (mkRef refname sha1)
  else
    sha1 <- call (Sha1FromString c data) ;;
    Ok (mkRef refname sha1).

Definition getDeref (c : Client) (opts : ShowRefOptions) (ref : Ref)
  : outcome (option Ref) :=
  if negb (Dereference opts) then Ok None
  else if String.eqb (TypeOf c (Value ref)) "tag" then
    deref <- call (RevParse c [Name ref ++ "^0"]) ;;
    match deref with
    | [] => Panic
    | id :: _ => Ok (Some (mkRef (Name ref ++ "^{}") id))
    end
  else Ok None.

(** [vals = append(vals, ref)], then [getDeref] and, when it gives a ref,
    [vals = append(vals, *deref)]. *)
Definition appendRef (c : Client) (opts : ShowRefOptions) (vals : list Ref)
                     (ref : Ref) : outcome (list Ref) :=
  deref <- getDeref c opts ref ;;
  match deref with
  | Some d => Ok (vals ++ [ref; d])%list
  | None => Ok (vals ++ [ref])%list
  end.

(** [for _, p := range patterns]: the first pattern that matches appends
    the ref and ends the loop. *)
Fixpoint matchPatterns (c : Client) (opts : ShowRefOptions) (vals : list Ref)
                       (ref : Ref) (patterns : list string)
  : outcome (list Ref) :=
  match patterns with
  | [] => Ok vals
  | p :: rest =>
      if Matches ref p then appendRef c opts vals ref
      else matchPatterns c opts vals ref rest
  end.

Definition selectRef (c : Client) (opts : ShowRefOptions)
                     (patterns : list string) (vals : list Ref) (ref : Ref)
  : outcome (list Ref) :=
  if (List.length patterns =? 0)%nat then appendRef c opts vals ref
  else matchPatterns c opts vals ref patterns.

(** The loop of the [Verify] branch. *)
Fixpoint verifyRefs (c : Client) (opts : ShowRefOptions) (vals : list Ref)
                    (patterns : list string) : outcome (list Ref) :=
  match patterns with
  | [] => Ok vals
  | ref :: rest =>
      if negb (Exists c (GitDirFile c ref)) then
        Err ("fatal: '" ++ ref ++ "' - not a valid ref")
      else
        r <- parseRef c ref ;;
        vals1 <- appendRef c opts vals r ;;
        verifyRefs c opts vals1 rest
  end.

(** The function handed to [filepath.Walk], run over the calls Walk makes;
    the first error ends the walk and is returned. *)
Fixpoint walkRefs (c : Client) (opts : ShowRefOptions) (patterns : list string)
                  (vals : list Ref) (visits : list (string * option bool))
  : outcome (list Ref) :=
  match visits with
  | [] => Ok vals
  | (_, None) :: _ => Panic
  | (_, Some true) :: rest => walkRefs c opts patterns vals rest
  | (path, Some false) :: rest =>
      let refname := TrimPrefix path (GitDir c) in
      ref <- parseRef c refname ;;
      vals1 <- selectRef c opts patterns vals ref ;;
      walkRefs c opts patterns vals1 rest
  end.

(** The loops over [refs/heads] and [refs/tags]. *)
Fixpoint listRefs (c : Client) (opts : ShowRefOptions) (patterns : list string)
                  (dir : string) (vals : list Ref) (names : list string)
  : outcome (list Ref) :=
  match names with
  | [] => Ok vals
  | n :: rest =>
      ref <- parseRef c (dir ++ n) ;;
      vals1 <- selectRef c opts patterns vals ref ;;
      listRefs c opts patterns dir vals1 rest
  end.

Definition ShowRef (c : Client) (opts : ShowRefOptions) (patterns : list string)
  : outcome (list Ref) :=
  if Verify opts then verifyRefs c opts [] patterns
  else
    let vals :=
      if IncludeHead opts then
        match GetHeadCommit c with
        | Val hcid => [mkRef "HEAD" hcid]
        | Fail _ => []
        end
      else [] in
    if negb (Heads opts) && negb (Tags opts) then
      walkRefs c opts patterns vals (Walk c (GitDirFile c "refs"))
    else
      vals1 <-
        (if Heads opts then
           heads <- call (ReadDir c (GitDirFile c "refs/heads")) ;;
           listRefs c opts patterns "refs/heads/" vals heads
         else Ok vals) ;;
      if Tags opts then
        tags <- call (ReadDir c (GitDirFile c "refs/tags")) ;;
        listRefs c opts patterns "refs/tags/" vals1 tags
      else Ok vals1.

(** The two halves of [ShowRef] outside the [Verify] branch: the HEAD entry
    [vals] starts with, and the enumeration that extends [vals]. *)
Definition headRefs (c : Client) (opts : ShowRefOptions) : list Ref :=
  if IncludeHead opts then
    match GetHeadCommit c with
    | Val hcid => [mkRef "HEAD" hcid]
    | Fail _ => []
    end
  else [].

Definition enumerateRefs (c : Client) (opts : ShowRefOptions)
                         (patterns : list string) (vals : list Ref)
  : outcome (list Ref) :=
  if negb (Heads opts) && negb (Tags opts) then
    walkRefs c opts patterns vals (Walk c (GitDirFile c "refs"))
  else
    vals1 <-
      (if Heads opts then
         heads <- call (ReadDir c (GitDirFile c "refs/heads")) ;;
         listRefs c opts patterns "refs/heads/" vals heads
       else Ok vals) ;;
    if Tags opts then
      tags <- call (ReadDir c (GitDirFile c "refs/tags")) ;;
      listRefs c opts patterns "refs/tags/" vals1 tags
    else Ok vals1.

(** [opts] with [IncludeHead] set to [b]. *)
Definition withIncludeHead (b : bool) (opts : ShowRefOptions) : ShowRefOptions :=
  mkShowRefOptions b (Tags opts) (Heads opts) (Dereference opts)
    (Sha1Only opts) (Verify opts) (Abbrev opts) (Quiet opts)
    (ExcludeExisting opts).

(** ** RefSpec and Branch *)

Definition RefSpec_String (r : RefSpec) : string :=
  if (String.length r <? 1)%nat then ""
  else TrimSpace (TrimSuffix r (String NUL "")).

(** Returns the file that holds [r]. *)
Definition RefSpec_File (c : Client) (r : RefSpec) : File :=
  GitDirFile c (RefSpec_String r).

Definition RefSpec_Value (c : Client) (r : RefSpec) : string * option error :=
  let f := RefSpec_File c r in
  let (val, err) := ReadAll c f in
  (TrimSpace val, err).

(** Strings made of ASCII white space only, and names whose first and last
    bytes are ASCII bytes other than white space and NUL. *)
Definition allSpaces (s : string) : bool :=
  forallb asciiSpace (list_ascii_of_string s).

Definition plainByte (c : ascii) : bool :=
  (N_of_ascii c <? 128)%N && negb (asciiSpace c) && negb (Ascii.eqb c NUL).

Definition plainEnds (s : string) : bool :=
  match s, lastByte s with
  | String c _, Some d => plainByte c && plainByte d
  | _, _ => false
  end.

(** ** DiffFiles *)

Record DiffCommonOptions : Type := mkDiffCommonOptions {
  Patch : bool;
  NumContextLines : Z;
  Raw : bool;
  ExitCode : bool
}.

Record DiffFilesOptions : Type := mkDiffFilesOptions {
  Common : DiffCommonOptions
}.

(** [HashDiff{path, index side, file-system side, index size, file-system
    size}]; the sizes are [uint]. *)
Record HashDiff : Type := mkHashDiff {
  Path : IndexPath;
  IndexSide : TreeEntry;
  FsSide : TreeEntry;
  IndexSize : Z;
  FsSize : Z
}.

(** The conversion [uint(x)] on a 64-bit platform. *)
Definition uint (x : Z) : Z := (x mod 2 ^ 64)%Z.

(** The bits of [os.FileMode]. *)
Definition osModeDir : N := (2 ^ 31)%N.
Definition osModeSymlink : N := (2 ^ 27)%N.
Definition osModeDevice : N := (2 ^ 26)%N.
Definition osModeNamedPipe : N := (2 ^ 25)%N.
Definition osModeSocket : N := (2 ^ 24)%N.
Definition osModeCharDevice : N := (2 ^ 21)%N.
Definition osModeIrregular : N := (2 ^ 19)%N.

Definition osModeType : N :=
  N.lor osModeDir (N.lor osModeSymlink (N.lor osModeNamedPipe
    (N.lor osModeSocket (N.lor osModeDevice
      (N.lor osModeCharDevice osModeIrregular))))).

Definition IsDir (m : N) : bool := negb (N.land m osModeDir =? 0)%N.
Definition IsRegular (m : N) : bool := (N.land m osModeType =? 0)%N.
Definition Perm (m : N) : N := N.land m 511.

(** What a run leaves behind besides its result: the lines it logs and the
    files it hashes. *)
Inductive event : Type :=
| Logged (line : string)
| Hashed (name : string).

(** The mode of the file-system side, from the [switch] on [stat.Mode()]
    once directories are set apart. *)
Definition fsMode (m : N) : EntryMode :=
  if negb (IsRegular m) then ModeSymlink
  else if negb (N.land (Perm m) 64 =? 0)%N then ModeExec
  else ModeBlob.

(** One iteration of the loop over the index entries: the events of the
    iteration and the diff it appends to [val], if any. *)
Definition diffEntry (c : Client) (idx : IndexEntry)
  : list event * option HashDiff :=
  let fs := emptyTreeEntry in
  let idxtree := mkTreeEntry (idxSha1 (Fixed idx)) (Mode (Fixed idx)) in
  let isize := uint (Z.of_N (Fsize (Fixed idx))) in
  match FilePath c (PathName idx) with
  | Fail _ => ([], Some (mkHashDiff (PathName idx) idxtree fs isize 0))
  | Val f =>
      if negb (Exists c f) then
        ([], Some (mkHashDiff (PathName idx) idxtree fs isize 0))
      else
        match Lstat c f with
        | Fail _ => ([], Some (mkHashDiff (PathName idx) idxtree fs isize 0))
        | Val stat =>
            if IsDir (st_mode stat) then
              ([], Some (mkHashDiff (PathName idx) idxtree fs isize 0))
            else
              let fs := mkTreeEntry (teSha1 fs) (fsMode (st_mode stat)) in
              let size := st_size stat in
              match CompareStat c idx f with
              | Some err =>
                  ([Logged ("Stat information does not match for " ++ f
                            ++ ": " ++ err ++ newline)],
                   Some (mkHashDiff (PathName idx) idxtree fs isize (uint size)))
              | None =>
                  match HashFile c f with
                  | Fail _ =>
                      ([Hashed f],
                       Some (mkHashDiff (PathName idx) idxtree fs isize (uint size)))
                  | Val hash =>
                      if negb (String.eqb hash (idxSha1 (Fixed idx))) then
                        ([Hashed f],
                         Some (mkHashDiff (PathName idx) idxtree fs isize (uint size)))
                      else ([Hashed f], None)
                  end
              end
        end
  end.

(** [for _, idx := range indexentries]. *)
Fixpoint diffLoop (c : Client) (entries : list IndexEntry)
                  (log : list event) (val : list HashDiff)
  : list event * list HashDiff :=
  match entries with
  | [] => (log, val)
  | idx :: rest =>
      let (evs, d) := diffEntry c idx in
      diffLoop c rest (log ++ evs)%list
        (match d with Some h => (val ++ [h])%list | None => val end)
  end.

(** Modelled from the spec: [ByName] is not among the sources; the emitted
    diffs are sorted by path, byte-lexicographically (section 4.5, step 7). *)
Fixpoint insertByName (h : HashDiff) (l : list HashDiff) : list HashDiff :=
  match l with
  | [] => [h]
  | x :: l' =>
      if String.leb (Path h) (Path x) then h :: l else x :: insertByName h l'
  end.

Definition sortByName (l : list HashDiff) : list HashDiff :=
  fold_right insertByName [] l.

(** DiffFiles implements the git diff-files command.  It compares the file
    system to the index. *)
Definition DiffFiles (c : Client) (opt : DiffFilesOptions) (paths : list File)
  : list event * result (list HashDiff) :=
  match LsFiles c paths with
  | Fail err => ([], Fail err)
  | Val indexentries =>
      let (log, val) := diffLoop c indexentries [] [] in
      (log, Val (sortByName val))
  end.

(** What the whole loop logs, hashes and appends. *)
Definition events (c : Client) (entries : list IndexEntry) : list event :=
  flat_map (fun idx => fst (diffEntry c idx)) entries.

Definition emitted (c : Client) (entries : list IndexEntry) : list HashDiff :=
  flat_map (fun idx => match snd (diffEntry c idx) with
                       | Some h => [h]
                       | None => []
                       end) entries.

(** The diff of an entry whose file is gone. *)
Definition deletedDiff (idx : IndexEntry) : HashDiff :=
  mkHashDiff (PathName idx)
             (mkTreeEntry (idxSha1 (Fixed idx)) (Mode (Fixed idx)))
             emptyTreeEntry (uint (Z.of_N (Fsize (Fixed idx)))) 0.

(** The diff of an entry whose file is there, with the mode and the size
    [Lstat] reports. *)
Definition modifiedDiff (idx : IndexEntry) (stat : FileInfo) : HashDiff :=
  mkHashDiff (PathName idx)
             (mkTreeEntry (idxSha1 (Fixed idx)) (Mode (Fixed idx)))
             (mkTreeEntry zeroSha1 (fsMode (st_mode stat)))
             (uint (Z.of_N (Fsize (Fixed idx)))) (uint (st_size stat)).

(** A regular file or a symbolic link is at the path of the entry. *)
Definition onDisk (c : Client) (idx : IndexEntry) (f : File) (stat : FileInfo)
  : Prop :=
  FilePath c (PathName idx) = Val f
  /\ Exists c f = true
  /\ Lstat c f = Val stat
  /\ IsDir (st_mode stat) = false.

Definition diffsOf (r : result (list HashDiff)) : list HashDiff :=
  match r with
  | Val diffs => diffs
  | Fail _ => []
  end.

(** Steps 5 and 6 of section 4.5 as the specification words them, for one
    entry of a run: when the stat metadata agrees the entry is skipped,
    without a diff and without hashing the file ... *)
Definition skippedWhenStatAgrees (c : Client) (opt : DiffFilesOptions)
    (paths : list File) (idx : IndexEntry) : Prop :=
  forall f stat,
    onDisk c idx f stat -> CompareStat c idx f = None ->
    (forall d, In d (diffsOf (snd (DiffFiles c opt paths))) ->
               Path d <> PathName idx)
    /\ ~ In (Hashed f) (fst (DiffFiles c opt paths)).

(** ... and when it disagrees the file is hashed again, and matching
    content gives no diff. *)
Definition rehashedWhenStatDiffers (c : Client) (opt : DiffFilesOptions)
    (paths : list File) (idx : IndexEntry) : Prop :=
  forall f stat err,
    onDisk c idx f stat -> CompareStat c idx f = Some err ->
    In (Hashed f) (fst (DiffFiles c opt paths))
    /\ (HashFile c f = Val (idxSha1 (Fixed idx)) ->
        forall d, In d (diffsOf (snd (DiffFiles c opt paths))) ->
                  Path d <> PathName idx).

(** ** commit.go *)

(** What [Commit] observes: [c.GetHeadID()], [WriteTree(c, repo)] and the
    id [CommitTree(c, args)] returns. *)
Record Repository : Type := mkRepository {
  GetHeadID : result string;
  WriteTree : string;
  CommitTree : list string -> string
}.

(** The loop gathering the message parameters.  [args] is a slice: besides
    its elements it has the elements [spare] of its backing array that lie
    between its length and its capacity.  The slice expression
    [args[idx:idx+2]] is bounded by the capacity, not by the length: for a
    flag in the last place it reaches the first spare element, and it
    panics when there is none. *)
Fixpoint gatherMessages (args spare : list string) : outcome (list string) :=
  match args with
  | [] => Ok []
  | val :: rest =>
      if String.eqb val "-m" || String.eqb val "-F" then
        match rest with
        | next :: _ =>
            messages <- gatherMessages rest spare ;;
            Ok (val :: next :: messages)
        | [] =>
            match spare with
            | hidden :: _ => Ok [val; hidden]
            | [] => Panic
            end
        end
      else gatherMessages rest spare
  end.

(** The argument vector [Commit] hands to [CommitTree]. *)
Definition commitTreeArgs (c : Repository) (args spare : list string)
  : outcome (list string) :=
  let parent :=
    match GetHeadID c with
    | Val parentCommit => ["-p"; parentCommit]
    | Fail _ => []
    end in
  messages <- gatherMessages args spare ;;
  Ok (parent ++ messages ++ [WriteTree c])%list.

(** The calls [Commit] makes once its arguments are gathered. *)
Inductive action : Type :=
| DoCommitTree (args : list string)
| DoUpdateRef (args : list string).

Definition Commit (c : Repository) (args spare : list string)
  : outcome (string * list action) :=
  cta <- commitTreeArgs c args spare ;;
  let commitSha1 := CommitTree c cta in
  Ok (commitSha1,
      [DoCommitTree cta;
       DoUpdateRef ["-m"; "commit from go-git"; "HEAD"; commitSha1]]).

(** ** A small repository

    One tracked file, [foo], and one branch, [master]; HEAD points at a
    branch that does not exist yet.  The parameters say whether [foo] is in
    the working tree, what [CompareStat] answers and what the file hashes
    to. *)

Definition shaA : Sha1 := bytes (List.repeat 0xAA%N 20).
Definition shaB : Sha1 := bytes (List.repeat 0xBB%N 20).

Definition fooEntry : IndexEntry :=
  mkIndexEntry "foo" (mkFixedIndexEntry ModeBlob 4 shaA).

(** A regular file of four bytes with permissions 0644. *)
Definition fooStat : FileInfo := mkFileInfo 420 4.

Definition masterFile : File := ".git/refs/heads/master".

Definition repository (present : bool) (stat : option error) (content : Sha1)
  : Client :=
  {| GitDir := ".git";
     GitDirFile := fun f => ".git/" ++ f;
     Exists := fun f => (present && String.eqb f "foo")
                        || String.eqb f masterFile;
     Lstat := fun _ => Val fooStat;
     ReadAll := fun f => if String.eqb f masterFile
                         then (hex shaA ++ newline, None)
                         else ("", Some "no such file");
     ReadFile := fun f => if String.eqb f masterFile
                          then Val (hex shaA ++ newline)
                          else Fail "no such file";
     ReadDir := fun d => if String.eqb d ".git/refs/heads"
                         then Val ["master"] else Val [];
     Walk := fun _ => [ (".git/refs", Some true);
                        (".git/refs/heads", Some true);
                        (masterFile, Some false) ];
     GetHeadCommit := Fail "refs/heads/main: no such file";
     SymbolicRefGet := fun _ => Fail "not a symbolic ref";
     RefSpecSha1 := fun _ => Fail "no such ref";
     Sha1FromString := fun s => if String.eqb s (hex shaA ++ newline)
                                then Val shaA else Fail "invalid sha1";
     TypeOf := fun _ => "commit";
     RevParse := fun _ => Fail "unknown revision";
     LsFiles := fun _ => Val [fooEntry];
     FilePath := fun p => Val p;
     CompareStat := fun _ _ => stat;
     HashFile := fun _ => Val content |}.

Definition noOptions : DiffFilesOptions :=
  mkDiffFilesOptions (mkDiffCommonOptions false 0 true false).

Definition showRefOptions (head verify : bool) : ShowRefOptions :=
  mkShowRefOptions head false false false false verify 0 false "".

(** A repository whose HEAD resolves, about to record a second commit. *)
Definition secondCommit : Repository :=
  {| GetHeadID := Val "aaaaaaaaaaaaaaaaaaaaaaaaaaaaaaaaaaaaaaaa";
     WriteTree := "6a09c59ce8eb1b5b4f89450103e67ff9b3a3b1ae";
     CommitTree := fun _ => "bbbbbbbbbbbbbbbbbbbbbbbbbbbbbbbbbbbbbbbb" |}.

(** ** Ref and Branch methods *)

Definition TreeID : Type := Sha1.
Definition Branch : Type := RefSpec.

Section Methods.

(** Declared outside the sources: the error value [InvalidBranch] and the
    method [CommitID.TreeID]. *)
Variable InvalidBranch : error.
Variable CommitTreeID : Client -> CommitID -> result TreeID.

Definition Ref_CommitID (c : Client) (r : Ref) : result CommitID :=
  if String.eqb (TypeOf c (Value r)) "commit" then Val (Value r)
  else Fail ("Can not convert " ++ Name r ++ " to commit").

Definition Ref_TreeID (c : Client) (r : Ref) : result TreeID :=
  if String.eqb (TypeOf c (Value r)) "commit" then CommitTreeID c (Value r)
  else if String.eqb (TypeOf c (Value r)) "tree" then Val (Value r)
  else Fail ("Can not get tree for " ++ Name r).

(** Returns true if the branch exists under c's GitDir. *)
Definition Branch_Exists (c : Client) (b : Branch) : bool :=
  Exists c (GitDirFile c b).

(** Returns a valid Branch object for an existing branch. *)
Definition GetBranch (c : Client) (branchname : string) : result Branch :=
  let b := "refs/heads/" ++ branchname in
  if negb (Branch_Exists c b) then Fail InvalidBranch else Val b.

Definition Branch_CommitID (c : Client) (b : Branch) : result CommitID :=
  match RefSpec_Value c b with
  | (_, Some err) => Fail err
  | (val, None) => Sha1FromString c val
  end.

Definition Branch_TreeID (c : Client) (b : Branch) : result TreeID :=
  match Branch_CommitID c b with
  | Fail err => Fail err
  | Val cmt => CommitTreeID c cmt
  end.

(** Returns the branch name, without the refspec portion. *)
Definition BranchName (b : Branch) : string :=
  TrimPrefix b "refs/heads/".

End Methods.

(** ** Notions used in the statements *)

(** A ref is listed when there is no pattern or when some pattern matches
    it. *)
Definition selects (patterns : list string) (r : Ref) : bool :=
  (List.length patterns =? 0)%nat || existsb (Matches r) patterns.

(** The paths [filepath.Walk] reports that are not directories. *)
Definition filePaths (visits : list (string * option bool)) : list string :=
  flat_map (fun v => match snd v with
                     | Some false => [fst v]
                     | _ => []
                     end) visits.








(** What one pattern contributes under [Verify], once its file is known
    to exist: the ref it names and, with [Dereference], the peeled tag. *)
Definition readPattern (c : Client) (opts : ShowRefOptions) (p : string)
  : outcome (list Ref) :=
  r <- parseRef c p ;; appendRef c opts [] r.

Definition notValidRef (p : string) : error :=
  "fatal: '" ++ p ++ "' - not a valid ref".

(** The specification's reading of [Verify]: a pattern that names no file
    makes [ShowRef] return the fatal error. *)
Definition verifyFatal (c : Client) (opts : ShowRefOptions)
    (patterns : list string) : Prop :=
  Verify opts = true ->
  (exists p, In p patterns /\ Exists c (GitDirFile c p) = false) ->
  exists q, In q patterns /\ ShowRef c opts patterns = Err (notValidRef q).

(** What one file contributes to an enumeration: its ref, when the patterns
    select it, with its peeled tag when [Dereference] asks for it. *)
Definition listed (c : Client) (opts : ShowRefOptions) (patterns : list string)
    (filename : string) : outcome (list Ref) :=
  ref <- parseRef c filename ;; selectRef c opts patterns [] ref.

(** The directory [dir] is read and each of its files, named with [prefix],
    is listed without error, giving [refs] in all; nothing when the
    directory is not asked for. *)
Definition listsDir (c : Client) (opts : ShowRefOptions) (patterns : list string)
    (dir prefix : string) (on : bool) (refs : list Ref) : Prop :=
  if on then
    exists names rss,
      ReadDir c (GitDirFile c dir) = Val names
      /\ Forall2 (fun n rs => listed c opts patterns (prefix ++ n) = Ok rs)
                 names rss
      /\ refs = List.concat rss
  else refs = [].

(** The enumeration the options ask for goes through without error and
    lists [refs]. *)
Definition enumerated (c : Client) (opts : ShowRefOptions)
    (patterns : list string) (refs : list Ref) : Prop :=
  if negb (Heads opts) && negb (Tags opts) then
    Forall (fun v => snd v <> None) (Walk c (GitDirFile c "refs"))
    /\ exists rss,
         Forall2 (fun path rs =>
                    listed c opts patterns (TrimPrefix path (GitDir c)) = Ok rs)
                 (filePaths (Walk c (GitDirFile c "refs"))) rss
         /\ refs = List.concat rss
  else
    exists hs ts,
      listsDir c opts patterns "refs/heads" "refs/heads/" (Heads opts) hs
      /\ listsDir c opts patterns "refs/tags" "refs/tags/" (Tags opts) ts
      /\ refs = (hs ++ ts)%list.

(** [opts] with [Heads] and [Tags] set to [h] and [t]. *)
Definition withHeadsTags (h t : bool) (opts : ShowRefOptions) : ShowRefOptions :=
  mkShowRefOptions (IncludeHead opts) t h (Dereference opts)
    (Sha1Only opts) (Verify opts) (Abbrev opts) (Quiet opts)
    (ExcludeExisting opts).

(** The options [ShowRef] reads. *)
Definition sameListing (o1 o2 : ShowRefOptions) : Prop :=
  IncludeHead o1 = IncludeHead o2 /\ Tags o1 = Tags o2
  /\ Heads o1 = Heads o2 /\ Dereference o1 = Dereference o2
  /\ Verify o1 = Verify o2.

(** The modes [DiffFiles] gives the file-system side of a diff. *)
Definition fsModes : list EntryMode := [0%N; ModeSymlink; ModeExec; ModeBlob].

(** A file that is on disk, with the stat metadata and the content the
    index records. *)
Definition unchanged (c : Client) (idx : IndexEntry) : Prop :=
  exists f stat,
    onDisk c idx f stat /\ CompareStat c idx f = None
    /\ HashFile c f = Val (idxSha1 (Fixed idx)).

Definition hashedFile (c : Client) (idx : IndexEntry) : list event :=
  match FilePath c (PathName idx) with
  | Val f => [Hashed f]
  | Fail _ => []
  end.

(** The number of [-m] and [-F] among the arguments. *)
Definition messageFlag (s : string) : bool :=
  String.eqb s "-m" || String.eqb s "-F".

Definition countFlags (args : list string) : nat :=
  List.length (filter messageFlag args).

(** The places of the arguments that hold [-m] or [-F]. *)
Definition flagPositions (args : list string) : list nat :=
  filter (fun i => messageFlag (nth i args "")) (seq 0 (List.length args)).

(** A repository with a tag and a client listing it. *)
Definition tagFile : File := ".git/refs/tags/v1".

Definition tagged : Client :=
  {| GitDir := ".git";
     GitDirFile := fun f => ".git/" ++ f;
     Exists := fun f => String.eqb f tagFile || String.eqb f masterFile;
     Lstat := fun _ => Val fooStat;
     ReadAll := fun f => if String.eqb f masterFile
                         then (hex shaA ++ newline, None)
                         else ("", Some "no such file");
     ReadFile := fun f => if String.eqb f masterFile
                          then Val (hex shaA ++ newline)
                          else if String.eqb f tagFile
                          then Val (hex shaB ++ newline)
                          else Fail "no such file";
     ReadDir := fun d => if String.eqb d ".git/refs/heads"
                         then Val ["master"]
                         else if String.eqb d ".git/refs/tags"
                         then Val ["v1"] else Val [];
     Walk := fun _ => [ (".git/refs", Some true);
                        (".git/refs/heads", Some true);
                        (masterFile, Some false);
                        (".git/refs/tags", Some true);
                        (tagFile, Some false) ];
     GetHeadCommit := Val shaA;
     SymbolicRefGet := fun _ => Fail "not a symbolic ref";
     RefSpecSha1 := fun _ => Fail "no such ref";
     Sha1FromString := fun s => if String.eqb s (hex shaA ++ newline)
                                then Val shaA
                                else if String.eqb s (hex shaA)
                                then Val shaA
                                else if String.eqb s (hex shaB ++ newline)
                                then Val shaB else Fail "invalid sha1";
     TypeOf := fun s => if String.eqb s shaB then "tag" else "commit";
     RevParse := fun _ => Val [shaA];
     LsFiles := fun _ => Val [fooEntry];
     FilePath := fun p => Val p;
     CompareStat := fun _ _ => None;
     HashFile := fun _ => Val shaA |}.

(** The same client when [refs] cannot be stat'ed. *)
Definition withWalk (visits : list (string * option bool)) (c : Client)
  : Client :=
  {| GitDir := GitDir c; GitDirFile := GitDirFile c; Exists := Exists c;
     Lstat := Lstat c; ReadAll := ReadAll c; ReadFile := ReadFile c;
     ReadDir := ReadDir c; Walk := fun _ => visits;
     GetHeadCommit := GetHeadCommit c; SymbolicRefGet := SymbolicRefGet c;
     RefSpecSha1 := RefSpecSha1 c; Sha1FromString := Sha1FromString c;
     TypeOf := TypeOf c; RevParse := RevParse c; LsFiles := LsFiles c;
     FilePath := FilePath c; CompareStat := CompareStat c;
     HashFile := HashFile c |}.

(** The repository of the claims once [refs/heads/master] holds something
    that is no hash. *)
Definition brokenBranch : Client :=
  {| GitDir := ".git";
     GitDirFile := fun f => ".git/" ++ f;
     Exists := Exists (repository true None shaA);
     Lstat := Lstat (repository true None shaA);
     ReadAll := ReadAll (repository true None shaA);
     ReadFile := fun f => if String.eqb f masterFile
                          then Val "not a hash" else Fail "no such file";
     ReadDir := ReadDir (repository true None shaA);
     Walk := Walk (repository true None shaA);
     GetHeadCommit := GetHeadCommit (repository true None shaA);
     SymbolicRefGet := SymbolicRefGet (repository true None shaA);
     RefSpecSha1 := RefSpecSha1 (repository true None shaA);
     Sha1FromString := Sha1FromString (repository true None shaA);
     TypeOf := TypeOf (repository true None shaA);
     RevParse := RevParse (repository true None shaA);
     LsFiles := LsFiles (repository true None shaA);
     FilePath := FilePath (repository true None shaA);
     CompareStat := CompareStat (repository true None shaA);
     HashFile := HashFile (repository true None shaA) |}.

Definition masterRef : Ref := mkRef "refs/heads/master" shaA.
Definition tagRef : Ref := mkRef "refs/tags/v1" shaB.

(** * Properties *)

(** ** Go strings *)

Lemma length_append (a b : string) :
  String.length (a ++ b) = String.length a + String.length b.
Proof. induction a as [|c a IH]; simpl; [reflexivity | now rewrite IH]. Qed.

Lemma append_nil_r (a : string) : a ++ "" = a.
Proof. induction a as [|c a IH]; simpl; [reflexivity | now rewrite IH]. Qed.

Lemma append_assoc (a b c : string) : (a ++ b) ++ c = a ++ b ++ c.
Proof. induction a as [|x a IH]; simpl; [reflexivity | now rewrite IH]. Qed.

Lemma take_drop (n : nat) (s : string) : take n s ++ drop n s = s.
Proof.
  revert s; induction n as [|n IH]; intros [|c s]; simpl; try reflexivity.
  now rewrite IH.
Qed.

Lemma drop_append (a b : string) : drop (String.length a) (a ++ b) = b.
Proof. induction a as [|c a IH]; simpl; [now destruct b | exact IH]. Qed.

Lemma take_append (a b : string) : take (String.length a) (a ++ b) = a.
Proof. induction a as [|c a IH]; simpl; [now destruct b | now rewrite IH]. Qed.

Lemma HasSuffix_spec (s suf : string) :
  HasSuffix s suf = true <-> exists pre, s = pre ++ suf.
Proof.
  unfold HasSuffix; split.
  - intros H; apply andb_true_iff in H as [_ H].
    apply String.eqb_eq in H.
    exists (take (String.length s - String.length suf) s).
    pose proof (take_drop (String.length s - String.length suf) s) as E.
    rewrite H in E. now symmetry.
  - intros [pre ->]. rewrite length_append.
    apply andb_true_iff; split.
    + apply Nat.leb_le; lia.
    + replace (String.length pre + String.length suf - String.length suf)
        with (String.length pre) by lia.
      rewrite drop_append. apply String.eqb_refl.
Qed.


(** ** Ref.Matches *)

(** C6: a ref matches a pattern exactly when its name is the pattern or ends
    with a slash followed by the pattern; the pattern is compared byte for
    byte, nothing in it is expanded. *)
Theorem Matches_exact_or_suffix (r : Ref) (pattern : string) :
  Matches r pattern = true
  <-> Name r = pattern \/ exists pre, Name r = pre ++ "/" ++ pattern.
Proof.
  unfold Matches. rewrite orb_true_iff, String.eqb_eq, HasSuffix_spec.
  reflexivity.
Qed.

Lemma Matches_exact_or_suffix_witness :
  Matches (mkRef "refs/heads/master" shaA) "master" = true.
Proof.
  apply (proj2 (Matches_exact_or_suffix (mkRef "refs/heads/master" shaA)
                                        "master")).
  right. exists "refs/heads". reflexivity.
Defined.

(** ** The tree writer *)

Example sha1_abc :
  hex (SHA1.sum "abc") = "a9993e364706816aba3e25717850c26c9cd0d89d".
Proof. vm_compute. reflexivity. Qed.

Example octal_modes :
  List.map octal [ModeBlob; ModeExec; ModeSymlink; ModeCommit; ModeTree]
  = ["100644"; "100755"; "120000"; "160000"; "40000"].
Proof. vm_compute. reflexivity. Qed.

(** Further rows of the table of [TestWriteIndex]. *)
Example row_single_file :
  run_row (sequence [blob_entry "foo" ("bar" ++ newline) ModeBlob])
  = Ok (Some "6a09c59ce8eb1b5b4f89450103e67ff9b3a3b1ae").
Proof. vm_compute. reflexivity. Qed.

Example row_symlink :
  run_row (sequence [blob_entry "bar" "foo" ModeSymlink])
  = Ok (Some "985badfa7a966612b9f9adadbaa6a30aa3e0b1f5").
Proof. vm_compute. reflexivity. Qed.

Example row_deep_subtree :
  run_row (sequence [blob_entry "foo/bar/baz" ("baz" ++ newline) ModeBlob])
  = Ok (Some "cc1846d0911b1790fd15859ffdf48598cb46b7b0").
Proof. vm_compute. reflexivity. Qed.

Example row_tree_then_file :
  run_row (sequence [blob_entry "bar/bar" ("bar" ++ newline) ModeBlob;
                     blob_entry "foo" ("foo" ++ newline) ModeBlob])
  = Ok (Some "615b1bd6b48087f25d16cc78279ea48ce5b1b59d").
Proof. vm_compute. reflexivity. Qed.

Example row_file_and_subtree :
  run_row (sequence [blob_entry "bar" ("bar" ++ newline) ModeBlob;
                     blob_entry "foo/bar" ("bar" ++ newline) ModeBlob;
                     blob_entry "foo/foo" ("foo" ++ newline) ModeBlob])
  = Ok (Some "18473c7faa0d4bb4913fd41a6768dbcf5fa70723").
Proof. vm_compute. reflexivity. Qed.

(** C1: the index with the file [baz] between the subtrees [bar] and [foo],
    written with the empty prefix into a fresh store, gives the tree
    18a6e5a95bb59e96dba722025de6abc692661bb6. *)
Theorem tree_writer_sandwich :
  run_row index_sandwich
  = Ok (Some "18a6e5a95bb59e96dba722025de6abc692661bb6").
Proof. vm_compute. reflexivity. Qed.

(** C2: the empty index gives the tree
    4b825dc642cb6eb9a060e54bf8d69288fbee4904, whatever the store holds: it
    is the hash of the header of a tree of no bytes. *)
Theorem tree_writer_empty (st : store) (prefix : string) :
  exists st' id,
    tree_writer st prefix [] = Some (st', id)
    /\ id = SHA1.sum ("tree 0" ++ String NUL "")
    /\ hex id = "4b825dc642cb6eb9a060e54bf8d69288fbee4904"
    /\ run_row (Ok []) = Ok (Some "4b825dc642cb6eb9a060e54bf8d69288fbee4904").
Proof.
  assert (E : tree_writer st prefix []
              = let '(st2, id, _) := store_write st "tree" "" in Some (st2, id))
    by reflexivity.
  rewrite E. unfold store_write.
  assert (Hid : hash_object "tree" "" = SHA1.sum ("tree 0" ++ String NUL ""))
    by reflexivity.
  assert (Hhex : hex (hash_object "tree" "")
                 = "4b825dc642cb6eb9a060e54bf8d69288fbee4904")
    by (vm_compute; reflexivity).
  assert (Hrow : run_row (Ok [])
                 = Ok (Some "4b825dc642cb6eb9a060e54bf8d69288fbee4904"))
    by (vm_compute; reflexivity).
  destruct (store_exists st (hash_object "tree" ""));
    eexists; eexists; (split; [reflexivity|]); now repeat split.
Qed.

(** ** RefSpec *)


Lemma plainByte_inv (c : ascii) :
  plainByte c = true ->
  (N_of_ascii c <? 128)%N = true /\ asciiSpace c = false /\ c <> NUL.
Proof.
  unfold plainByte; intros H.
  apply andb_true_iff in H as [H H3]; apply andb_true_iff in H as [H1 H2].
  apply negb_true_iff in H2, H3. apply Ascii.eqb_neq in H3. now repeat split.
Qed.

Lemma leadingSpace_plain (c : ascii) (s : string) :
  plainByte c = true -> leadingSpace (String c s) = 0.
Proof.
  intros H; apply plainByte_inv in H as (H1 & H2 & _).
  unfold leadingSpace; now rewrite H2, H1.
Qed.

Lemma trimLeft_spaces (ws t : string) :
  allSpaces ws = true ->
  forall fuel, String.length ws <= fuel ->
  trimLeft fuel (ws ++ t) = trimLeft (fuel - String.length ws) t.
Proof.
  unfold allSpaces; induction ws as [|c ws IH]; simpl; intros H fuel Hf.
  - now rewrite Nat.sub_0_r.
  - apply andb_true_iff in H as [Hc Hws].
    destruct fuel as [|fuel]; [lia|]. simpl trimLeft.
    rewrite Hc. simpl. apply IH; [exact Hws | lia].
Qed.

Lemma trimLeft_fixed (fuel : nat) (t : string) :
  leadingSpace t = 0 -> trimLeft fuel t = t.
Proof. intros H; destruct fuel; simpl; [reflexivity | now rewrite H]. Qed.

Lemma lastByte_append (a b : string) :
  b <> "" -> lastByte (a ++ b) = lastByte b.
Proof.
  intros Hb; induction a as [|c a IH]; simpl; [reflexivity|].
  destruct (a ++ b) eqn:E; [|exact IH].
  destruct a; simpl in E; [contradiction | discriminate].
Qed.

Lemma lastByte_nonempty (c : ascii) (s : string) :
  lastByte (String c s) <> None.
Proof.
  revert c; induction s as [|d s IH]; intros c; [discriminate|].
  change (lastByte (String c (String d s))) with (lastByte (String d s)).
  apply IH.
Qed.

Lemma lastByte_snoc (a : string) (c : ascii) :
  lastByte (a ++ String c "") = Some c.
Proof. now rewrite lastByte_append. Qed.

Lemma take_snoc (t : string) (c : ascii) :
  take (String.length (t ++ String c "") - 1) (t ++ String c "") = t.
Proof.
  rewrite length_append; simpl.
  replace (String.length t + 1 - 1) with (String.length t) by lia.
  apply take_append.
Qed.

Lemma trailingSpace_space (t : string) (c : ascii) :
  asciiSpace c = true -> trailingSpace (t ++ String c "") = 1.
Proof. intros H; unfold trailingSpace; now rewrite lastByte_snoc, H. Qed.

Lemma trailingSpace_plain (t : string) (d : ascii) :
  lastByte t = Some d -> plainByte d = true -> trailingSpace t = 0.
Proof.
  intros Hl H; apply plainByte_inv in H as (H1 & H2 & _).
  unfold trailingSpace; now rewrite Hl, H2, H1.
Qed.

Lemma trimRight_spaces (ws : string) :
  allSpaces ws = true ->
  forall t fuel, String.length ws <= fuel ->
  trimRight fuel (t ++ ws) = trimRight (fuel - String.length ws) t.
Proof.
  unfold allSpaces; induction ws as [|c ws IH]; simpl; intros H t fuel Hf.
  - now rewrite append_nil_r, Nat.sub_0_r.
  - apply andb_true_iff in H as [Hc Hws].
    change (String c ws) with (String c "" ++ ws).
    rewrite <- append_assoc, (IH Hws) by lia.
    destruct (fuel - String.length ws) as [|fuel'] eqn:E; [lia|].
    replace (fuel - S (String.length ws)) with fuel' by lia.
    simpl trimRight. rewrite (trailingSpace_space t c Hc).
    now rewrite take_snoc.
Qed.

Lemma trimRight_fixed (fuel : nat) (t : string) :
  trailingSpace t = 0 -> trimRight fuel t = t.
Proof. intros H; destruct fuel; simpl; [reflexivity | now rewrite H]. Qed.

Lemma allSpaces_lastByte (ws : string) (c : ascii) :
  allSpaces ws = true -> lastByte ws = Some c -> asciiSpace c = true.
Proof.
  unfold allSpaces; induction ws as [|x ws IH]; simpl; [discriminate|].
  intros H; apply andb_true_iff in H as [Hx Hws].
  destruct ws as [|y ws]; [intros [= <-]; exact Hx | now apply IH].
Qed.

(** White space around a plain name is trimmed away. *)
Lemma TrimSpace_padded (ws1 name ws2 : string) :
  allSpaces ws1 = true -> allSpaces ws2 = true -> plainEnds name = true ->
  TrimSpace (ws1 ++ name ++ ws2) = name.
Proof.
  intros H1 H2 Hn. unfold TrimSpace.
  assert (Hlen : String.length (ws1 ++ name ++ ws2)
                 = String.length ws1 + (String.length name + String.length ws2))
    by now rewrite !length_append.
  rewrite (trimLeft_spaces ws1 (name ++ ws2) H1) by lia.
  unfold plainEnds in Hn. destruct name as [|c name]; [discriminate|].
  destruct (lastByte (String c name)) as [d|] eqn:Hl; [|discriminate].
  apply andb_true_iff in Hn as [Hc Hd].
  rewrite trimLeft_fixed by (simpl append; now apply leadingSpace_plain).
  rewrite (trimRight_spaces ws2 H2) by lia.
  apply trimRight_fixed. now apply trailingSpace_plain with d.
Qed.

Lemma padded_lastByte (ws1 name ws2 : string) :
  allSpaces ws2 = true -> plainEnds name = true ->
  exists d, lastByte (ws1 ++ name ++ ws2) = Some d /\ d <> NUL.
Proof.
  intros H2 Hn. unfold plainEnds in Hn.
  destruct name as [|c name]; [discriminate|].
  destruct (lastByte (String c name)) as [d|] eqn:Hl; [|discriminate].
  apply andb_true_iff in Hn as [_ Hd].
  destruct ws2 as [|x ws2].
  - exists d. rewrite append_nil_r, lastByte_append by discriminate.
    split; [exact Hl | now apply plainByte_inv in Hd].
  - rewrite <- append_assoc, lastByte_append by discriminate.
    destruct (lastByte (String x ws2)) as [y|] eqn:Hy.
    + exists y; split; [reflexivity|].
      pose proof (allSpaces_lastByte _ _ H2 Hy) as Hs.
      intros ->. discriminate Hs.
    + now apply lastByte_nonempty in Hy.
Qed.

Lemma TrimSuffix_no_NUL (r : string) (d : ascii) :
  lastByte r = Some d -> d <> NUL -> TrimSuffix r (String NUL "") = r.
Proof.
  intros Hl Hd. unfold TrimSuffix.
  destruct (HasSuffix r (String NUL "")) eqn:E; [|reflexivity].
  apply HasSuffix_spec in E as [pre ->].
  rewrite lastByte_snoc in Hl. now injection Hl as <-.
Qed.

Lemma RefSpec_String_unfold (r : RefSpec) :
  RefSpec_String r = TrimSpace (TrimSuffix r (String NUL "")).
Proof. unfold RefSpec_String. now destruct r. Qed.

(** ** ShowRef *)

Lemma bind_Ok {A : Type} (m : outcome A) : (x <- m ;; Ok x) = m.
Proof. now destruct m. Qed.

Lemma bind_assoc {A B C : Type} (m : outcome A) (k : A -> outcome B)
      (h : B -> outcome C) :
  (y <- (x <- m ;; k x) ;; h y) = (x <- m ;; y <- k x ;; h y).
Proof. now destruct m. Qed.

Lemma bind_ext {A B : Type} (m : outcome A) (k k' : A -> outcome B) :
  (forall a, k a = k' a) -> bind m k = bind m k'.
Proof. intros H; destruct m; simpl; [apply H | reflexivity | reflexivity]. Qed.

(** The refs already gathered are only ever extended. *)
Lemma appendRef_prefix c opts (v0 vals : list Ref) ref :
  appendRef c opts (v0 ++ vals)%list ref
  = (r <- appendRef c opts vals ref ;; Ok (v0 ++ r)%list).
Proof.
  unfold appendRef. destruct (getDeref c opts ref) as [[d|]| |]; simpl;
    now rewrite <- ?app_assoc.
Qed.

Lemma matchPatterns_prefix c opts (v0 vals : list Ref) ref patterns :
  matchPatterns c opts (v0 ++ vals)%list ref patterns
  = (r <- matchPatterns c opts vals ref patterns ;; Ok (v0 ++ r)%list).
Proof.
  induction patterns as [|p rest IH]; simpl; [reflexivity|].
  destruct (Matches ref p); [apply appendRef_prefix | exact IH].
Qed.

Lemma selectRef_prefix c opts patterns (v0 vals : list Ref) ref :
  selectRef c opts patterns (v0 ++ vals)%list ref
  = (r <- selectRef c opts patterns vals ref ;; Ok (v0 ++ r)%list).
Proof.
  unfold selectRef. destruct (List.length patterns =? 0)%nat;
    [apply appendRef_prefix | apply matchPatterns_prefix].
Qed.

Lemma walkRefs_prefix c opts patterns (v0 : list Ref) visits :
  forall vals,
  walkRefs c opts patterns (v0 ++ vals)%list visits
  = (r <- walkRefs c opts patterns vals visits ;; Ok (v0 ++ r)%list).
Proof.
  induction visits as [|[path [[|]|]] rest IH]; intros vals; simpl;
    try reflexivity; [apply IH|].
  destruct (parseRef c (TrimPrefix path (GitDir c))) as [ref| |]; simpl;
    try reflexivity.
  rewrite selectRef_prefix, !bind_assoc. apply bind_ext; intros a; simpl.
  apply IH.
Qed.

Lemma listRefs_prefix c opts patterns dir (v0 : list Ref) names :
  forall vals,
  listRefs c opts patterns dir (v0 ++ vals)%list names
  = (r <- listRefs c opts patterns dir vals names ;; Ok (v0 ++ r)%list).
Proof.
  induction names as [|n rest IH]; intros vals; simpl; [reflexivity|].
  destruct (parseRef c (dir ++ n)) as [ref| |]; simpl; try reflexivity.
  rewrite selectRef_prefix, !bind_assoc. apply bind_ext; intros a; simpl.
  apply IH.
Qed.

(** Only [Dereference] is read by the loops. *)
Lemma selectRef_withIncludeHead b c opts patterns vals ref :
  selectRef c (withIncludeHead b opts) patterns vals ref
  = selectRef c opts patterns vals ref.
Proof.
  unfold selectRef. destruct (List.length patterns =? 0)%nat; [reflexivity|].
  induction patterns as [|p rest IH]; simpl; [reflexivity|].
  destruct (Matches ref p); [reflexivity | exact IH].
Qed.

Lemma walkRefs_withIncludeHead b c opts patterns visits :
  forall vals,
  walkRefs c (withIncludeHead b opts) patterns vals visits
  = walkRefs c opts patterns vals visits.
Proof.
  induction visits as [|[path [[|]|]] rest IH]; intros vals; simpl;
    try reflexivity; [apply IH|].
  apply bind_ext; intros ref. rewrite selectRef_withIncludeHead.
  apply bind_ext; intros a. apply IH.
Qed.

Lemma listRefs_withIncludeHead b c opts patterns dir names :
  forall vals,
  listRefs c (withIncludeHead b opts) patterns dir vals names
  = listRefs c opts patterns dir vals names.
Proof.
  induction names as [|n rest IH]; intros vals; simpl; [reflexivity|].
  apply bind_ext; intros ref. rewrite selectRef_withIncludeHead.
  apply bind_ext; intros a. apply IH.
Qed.

Lemma verifyRefs_withIncludeHead b c opts patterns :
  forall vals,
  verifyRefs c (withIncludeHead b opts) vals patterns
  = verifyRefs c opts vals patterns.
Proof.
  induction patterns as [|p rest IH]; intros vals; simpl; [reflexivity|].
  destruct (negb (Exists c (GitDirFile c p))); [reflexivity|].
  apply bind_ext; intros ref. apply bind_ext; intros a. apply IH.
Qed.

Lemma ShowRef_unfold c opts patterns :
  ShowRef c opts patterns
  = if Verify opts then verifyRefs c opts [] patterns
    else enumerateRefs c opts patterns (headRefs c opts).
Proof. reflexivity. Qed.

Lemma enumerateRefs_withIncludeHead b c opts patterns vals :
  enumerateRefs c (withIncludeHead b opts) patterns vals
  = enumerateRefs c opts patterns vals.
Proof.
  unfold enumerateRefs; simpl.
  destruct (Heads opts), (Tags opts); simpl.
  - destruct (ReadDir c (GitDirFile c "refs/heads")) as [heads|e]; simpl;
      [|reflexivity].
    rewrite listRefs_withIncludeHead.
    apply bind_ext; intros vals1. apply bind_ext; intros tags.
    apply listRefs_withIncludeHead.
  - destruct (ReadDir c (GitDirFile c "refs/heads")) as [heads|e]; simpl;
      [|reflexivity].
    now rewrite listRefs_withIncludeHead.
  - apply bind_ext; intros tags. apply listRefs_withIncludeHead.
  - apply walkRefs_withIncludeHead.
Qed.

Lemma enumerateRefs_prefix c opts patterns (v0 vals : list Ref) :
  enumerateRefs c opts patterns (v0 ++ vals)%list
  = (r <- enumerateRefs c opts patterns vals ;; Ok (v0 ++ r)%list).
Proof.
  unfold enumerateRefs.
  destruct (Heads opts), (Tags opts); simpl.
  - destruct (ReadDir c (GitDirFile c "refs/heads")) as [heads|e]; simpl;
      [|reflexivity].
    rewrite listRefs_prefix.
    destruct (listRefs c opts patterns "refs/heads/" vals heads)
      as [vals1| |]; simpl; try reflexivity.
    destruct (ReadDir c (GitDirFile c "refs/tags")) as [tags|e]; simpl;
      [|reflexivity].
    apply listRefs_prefix.
  - destruct (ReadDir c (GitDirFile c "refs/heads")) as [heads|e]; simpl;
      [|reflexivity].
    rewrite listRefs_prefix.
    now destruct (listRefs c opts patterns "refs/heads/" vals heads).
  - destruct (ReadDir c (GitDirFile c "refs/tags")) as [tags|e]; simpl;
      [|reflexivity].
    apply listRefs_prefix.
  - apply walkRefs_prefix.
Qed.

Lemma selectRef_from_nil c opts patterns (vals : list Ref) ref :
  selectRef c opts patterns vals ref
  = (rs <- selectRef c opts patterns [] ref ;; Ok (vals ++ rs)%list).
Proof.
  pose proof (selectRef_prefix c opts patterns vals [] ref) as E.
  now rewrite app_nil_r in E.
Qed.

Lemma walkRefs_listed c opts patterns visits :
  Forall (fun v => snd v <> None) visits ->
  forall rss,
  Forall2 (fun path rs =>
             listed c opts patterns (TrimPrefix path (GitDir c)) = Ok rs)
          (filePaths visits) rss ->
  forall vals,
  walkRefs c opts patterns vals visits = Ok (vals ++ List.concat rss)%list.
Proof.
  intros Hn. induction Hn as [|[path info] rest Hi Hn IH]; intros rss HF vals.
  - inversion HF; subst. simpl. now rewrite app_nil_r.
  - destruct info as [[|]|]; [now apply IH| |now contradiction Hi].
    unfold filePaths in HF. cbn [flat_map snd fst app] in HF.
    inversion HF as [|p rs ps rss' Hp HF']; subst.
    cbn [walkRefs]. unfold listed in Hp.
    destruct (parseRef c (TrimPrefix path (GitDir c))) as [ref| |];
      try discriminate.
    cbn [bind] in *. rewrite selectRef_from_nil, Hp. cbn [bind].
    rewrite (IH rss' HF'). cbn [List.concat]. now rewrite app_assoc.
Qed.

Lemma listRefs_listed c opts patterns prefix names rss :
  Forall2 (fun n rs => listed c opts patterns (prefix ++ n) = Ok rs) names rss ->
  forall vals,
  listRefs c opts patterns prefix vals names = Ok (vals ++ List.concat rss)%list.
Proof.
  intros HF. induction HF as [|n rs names rss Hp HF IH]; intros vals.
  - simpl. now rewrite app_nil_r.
  - cbn [listRefs]. unfold listed in Hp.
    destruct (parseRef c (prefix ++ n)) as [ref| |]; try discriminate.
    cbn [bind] in *. rewrite selectRef_from_nil, Hp. cbn [bind].
    rewrite IH. cbn [List.concat]. now rewrite app_assoc.
Qed.

Lemma enumerateRefs_enumerated c opts patterns refs :
  enumerated c opts patterns refs ->
  forall vals, enumerateRefs c opts patterns vals = Ok (vals ++ refs)%list.
Proof.
  unfold enumerated, enumerateRefs, listsDir. intros H vals.
  destruct (Heads opts), (Tags opts); cbn [negb andb] in *.
  - destruct H as (hs & ts & (hn & hrss & Hh & HFh & ->)
                     & (tn & trss & Ht & HFt & ->) & ->).
    rewrite Hh. cbn [call bind].
    rewrite (listRefs_listed c opts patterns "refs/heads/" hn hrss HFh).
    cbn [bind]. rewrite Ht. cbn [call bind].
    rewrite (listRefs_listed c opts patterns "refs/tags/" tn trss HFt).
    now rewrite app_assoc.
  - destruct H as (hs & ts & (hn & hrss & Hh & HFh & ->) & -> & ->).
    rewrite Hh. cbn [call bind].
    rewrite (listRefs_listed c opts patterns "refs/heads/" hn hrss HFh).
    cbn [bind]. now rewrite app_nil_r.
  - destruct H as (hs & ts & -> & (tn & trss & Ht & HFt & ->) & ->).
    cbn [bind]. rewrite Ht. cbn [call bind].
    now rewrite (listRefs_listed c opts patterns "refs/tags/" tn trss HFt).
  - destruct H as (Hn & rss & HF & ->). now apply walkRefs_listed.
Qed.

(** C8: with [IncludeHead] set, a HEAD that does not resolve is left out
    without an error: when the enumeration the options ask for goes through,
    [ShowRef] succeeds and returns the refs of that enumeration and nothing
    else, and in any case it returns what it returns without [IncludeHead].
    HEAD comes first in the result exactly when it resolves to a commit. *)
Theorem ShowRef_dangling_head_omitted (c : Client) (opts : ShowRefOptions)
        (patterns : list string) :
  Verify opts = false ->
  IncludeHead opts = true ->
  (forall refs,
     enumerated c opts patterns refs ->
     ShowRef c opts patterns
     = Ok (match GetHeadCommit c with
           | Val hcid => mkRef "HEAD" hcid :: refs
           | Fail _ => refs
           end))
  /\ match GetHeadCommit c with
     | Fail _ =>
         ShowRef c opts patterns
         = ShowRef c (withIncludeHead false opts) patterns
     | Val hcid =>
         ShowRef c opts patterns
         = (refs <- ShowRef c (withIncludeHead false opts) patterns ;;
            Ok (mkRef "HEAD" hcid :: refs))
     end.
Proof.
  intros Hv Hh. rewrite !ShowRef_unfold. unfold headRefs.
  cbn [Verify IncludeHead withIncludeHead]. rewrite Hv, Hh.
  rewrite enumerateRefs_withIncludeHead. split.
  - intros refs He.
    rewrite (enumerateRefs_enumerated c opts patterns refs He).
    now destruct (GetHeadCommit c).
  - destruct (GetHeadCommit c) as [hcid|e]; [|reflexivity].
    apply (enumerateRefs_prefix c opts patterns [mkRef "HEAD" hcid] []).
Qed.

Lemma ShowRef_dangling_head_omitted_witness :
  Verify (showRefOptions true false) = false
  /\ IncludeHead (showRefOptions true false) = true
  /\ GetHeadCommit (repository true None shaA)
     = Fail "refs/heads/main: no such file"
  /\ ShowRef (repository true None shaA) (showRefOptions true false) []
     = Ok [masterRef].
Proof.
  split; [reflexivity|]. split; [reflexivity|]. split; [reflexivity|].
  refine (proj1 (ShowRef_dangling_head_omitted (repository true None shaA)
                   (showRefOptions true false) [] eq_refl eq_refl)
                [masterRef] _).
  split.
  - repeat constructor; discriminate.
  - exists [[masterRef]]. split; [|reflexivity]. repeat constructor.
Defined.

Lemma verifyRefs_app c opts (pre post : list string) :
  forall vals,
  verifyRefs c opts vals (pre ++ post)%list
  = (vals1 <- verifyRefs c opts vals pre ;; verifyRefs c opts vals1 post).
Proof.
  induction pre as [|p pre IH]; intros vals; simpl; [reflexivity|].
  destruct (negb (Exists c (GitDirFile c p))); [reflexivity|].
  rewrite !bind_assoc. apply bind_ext; intros r.
  rewrite !bind_assoc. apply bind_ext; intros vals1. apply IH.
Qed.

(** Only the index into the result of [RevParse] can panic. *)
Lemma verifyRefs_no_panic c opts :
  Dereference opts = false ->
  forall patterns vals, verifyRefs c opts vals patterns <> Panic.
Proof.
  intros Hd. induction patterns as [|p rest IH]; intros vals; simpl;
    [discriminate|].
  destruct (negb (Exists c (GitDirFile c p))); [discriminate|].
  unfold parseRef.
  destruct (ReadFile c (GitDirFile c (TrimPrefix p "/"))) as [data|e]; simpl;
    [|discriminate].
  assert (Ha : forall r, (vals1 <- appendRef c opts vals r ;;
                          verifyRefs c opts vals1 rest) <> Panic).
  { intros r. unfold appendRef, getDeref. rewrite Hd. simpl. apply IH. }
  destruct (HasPrefix data "ref: ").
  - destruct (SymbolicRefGet c (TrimPrefix p "/")) as [deref|e]; simpl;
      [|discriminate].
    destruct (RefSpecSha1 c deref) as [sha1|e]; simpl; [apply Ha|discriminate].
  - destruct (Sha1FromString c data) as [sha1|e]; simpl;
      [apply Ha|discriminate].
Qed.

(** The first pattern that names no file. *)
Lemma first_missing (c : Client) (patterns : list string) (p : string) :
  In p patterns -> Exists c (GitDirFile c p) = false ->
  exists pre q post,
    patterns = (pre ++ q :: post)%list
    /\ Exists c (GitDirFile c q) = false
    /\ Forall (fun x => Exists c (GitDirFile c x) = true) pre.
Proof.
  intros Hin Hp. induction patterns as [|a l IH]; [contradiction|].
  destruct (Exists c (GitDirFile c a)) eqn:Ea.
  - destruct Hin as [->|Hin]; [congruence|].
    destruct (IH Hin) as (pre & q & post & -> & Hq & Hpre).
    exists (a :: pre), q, post. repeat split; auto.
  - exists [], a, l. repeat split; auto.
Qed.

Lemma verifyRefs_cons c opts vals (p : string) (rest : list string) :
  Exists c (GitDirFile c p) = true ->
  verifyRefs c opts vals (p :: rest)
  = (refs <- readPattern c opts p ;; verifyRefs c opts (vals ++ refs)%list rest).
Proof.
  intros Hx. cbn [verifyRefs]. rewrite Hx. cbn [negb]. unfold readPattern.
  destruct (parseRef c p) as [r| |]; cbn [bind]; try reflexivity.
  pose proof (appendRef_prefix c opts vals [] r) as E.
  rewrite app_nil_r in E. rewrite E.
  now destruct (appendRef c opts [] r).
Qed.

Lemma verifyRefs_readable c opts (pre : list string) :
  Forall (fun x => Exists c (GitDirFile c x) = true) pre ->
  Forall (fun x => exists refs, readPattern c opts x = Ok refs) pre ->
  forall vals, exists vals', verifyRefs c opts vals pre = Ok vals'.
Proof.
  induction pre as [|p pre IH]; intros Hx Hr vals.
  - now exists vals.
  - apply Forall_cons_iff in Hx as [Hp Hx].
    apply Forall_cons_iff in Hr as [[refs Hrefs] Hr].
    rewrite (verifyRefs_cons c opts vals p pre Hp), Hrefs. cbn [bind].
    now apply IH.
Qed.

Lemma verifyRefs_unreadable c opts (pre1 pre2 tail : list string) (x : string) :
  Forall (fun y => Exists c (GitDirFile c y) = true) (pre1 ++ [x])%list ->
  Forall (fun y => exists refs, readPattern c opts y = Ok refs) pre1 ->
  forall vals,
  match readPattern c opts x with
  | Ok _ => True
  | Err e => verifyRefs c opts vals (pre1 ++ x :: tail)%list = Err e
  | Panic => verifyRefs c opts vals (pre1 ++ x :: tail)%list = Panic
  end.
Proof.
  induction pre1 as [|p pre1 IH]; intros Hx Hr vals.
  - apply Forall_cons_iff in Hx as [Hx0 _].
    cbn [app]. rewrite (verifyRefs_cons c opts vals x tail Hx0).
    now destruct (readPattern c opts x).
  - cbn [app] in Hx. apply Forall_cons_iff in Hx as [Hp Hx].
    apply Forall_cons_iff in Hr as [[refs Hrefs] Hr].
    cbn [app]. rewrite (verifyRefs_cons c opts vals p _ Hp), Hrefs.
    cbn [bind]. now apply IH.
Qed.

(** C7, as the specification words it, fails: [refs/heads/master] exists
    but holds no hash, and the pattern after it names no file; the call
    returns the error of reading the first pattern, not the fatal error. *)
Lemma ShowRef_verify_missing_counterexample :
  ~ verifyFatal brokenBranch (showRefOptions false true)
      ["refs/heads/master"; "nope"].
Proof.
  intros H.
  destruct (H eq_refl) as (q & _ & Hq).
  - exists "nope". split; [right; now left | reflexivity].
  - vm_compute in Hq. discriminate Hq.
Qed.

(** C7, amended: under [Verify], when [q] is the first pattern that does not
    name an existing file under the git directory, [ShowRef] returns no
    refs.  It returns the error "fatal: 'q' - not a valid ref" when every
    pattern before [q] is read without error; otherwise it ends with the
    error, or the panic, of the first pattern before [q] that cannot be
    read.  The patterns are looked up as file names and never compared with
    [Matches]. *)
Theorem ShowRef_verify_missing (c : Client) (opts : ShowRefOptions)
        (pre post : list string) (q : string) :
  Verify opts = true ->
  Forall (fun x => Exists c (GitDirFile c x) = true) pre ->
  Exists c (GitDirFile c q) = false ->
  (forall refs, ShowRef c opts (pre ++ q :: post)%list <> Ok refs)
  /\ (Forall (fun x => exists refs, readPattern c opts x = Ok refs) pre ->
      ShowRef c opts (pre ++ q :: post)%list = Err (notValidRef q))
  /\ (forall pre1 x pre2,
        pre = (pre1 ++ x :: pre2)%list ->
        Forall (fun y => exists refs, readPattern c opts y = Ok refs) pre1 ->
        match readPattern c opts x with
        | Ok _ => True
        | Err e => ShowRef c opts (pre ++ q :: post)%list = Err e
        | Panic => ShowRef c opts (pre ++ q :: post)%list = Panic
        end).
Proof.
  intros Hv Hpre Hq. rewrite ShowRef_unfold, Hv.
  assert (E : forall vals,
            verifyRefs c opts vals (pre ++ q :: post)%list
            = (_ <- verifyRefs c opts vals pre ;; Err (notValidRef q))).
  { intros vals. rewrite verifyRefs_app. apply bind_ext; intros vals1.
    cbn [verifyRefs]. now rewrite Hq. }
  split; [|split].
  - intros refs. rewrite E. now destruct (verifyRefs c opts [] pre).
  - intros Hr. rewrite E.
    destruct (verifyRefs_readable c opts pre Hpre Hr []) as [vals' ->].
    reflexivity.
  - intros pre1 x pre2 -> Hr1.
    assert (Hx : Forall (fun y => Exists c (GitDirFile c y) = true)
                        (pre1 ++ [x])%list).
    { apply Forall_app in Hpre as [H1 H2]. apply Forall_app. split; [exact H1|].
      inversion H2; subst. now constructor. }
    pose proof (verifyRefs_unreadable c opts pre1 pre2 (pre2 ++ q :: post)%list
                  x Hx Hr1 []) as H.
    rewrite <- app_assoc. cbn [app].
    exact H.
Qed.

Lemma ShowRef_verify_missing_witness :
  Verify (showRefOptions false true) = true
  /\ Exists (repository true None shaA)
       (GitDirFile (repository true None shaA) "refs/heads/master") = true
  /\ Exists (repository true None shaA)
       (GitDirFile (repository true None shaA) "master") = false
  /\ Matches masterRef "master" = true
  /\ ShowRef (repository true None shaA) (showRefOptions false true)
       ["refs/heads/master"; "master"; "refs/heads/master"]
     = Err "fatal: 'master' - not a valid ref".
Proof.
  split; [reflexivity|]. split; [reflexivity|]. split; [reflexivity|].
  split; [reflexivity|].
  refine (proj1 (proj2 (ShowRef_verify_missing (repository true None shaA)
                          (showRefOptions false true) ["refs/heads/master"]
                          ["refs/heads/master"] "master" eq_refl _ eq_refl)) _).
  - repeat constructor.
  - constructor; [|constructor]. exists [masterRef]. reflexivity.
Defined.

(** ** DiffFiles *)

Lemma diffLoop_spec (c : Client) (entries : list IndexEntry) :
  forall log val,
  diffLoop c entries log val
  = ((log ++ events c entries)%list, (val ++ emitted c entries)%list).
Proof.
  induction entries as [|idx rest IH]; intros log val; simpl.
  - now rewrite !app_nil_r.
  - unfold events, emitted in *; simpl.
    destruct (diffEntry c idx) as [evs [h|]]; simpl; rewrite IH;
      now rewrite <- ?app_assoc.
Qed.

Lemma insertByName_perm (h : HashDiff) (l : list HashDiff) :
  Permutation (insertByName h l) (h :: l).
Proof.
  induction l as [|x l IH]; simpl; [reflexivity|].
  destruct (String.leb (Path h) (Path x)); [reflexivity|].
  rewrite IH. apply perm_swap.
Qed.

Lemma sortByName_perm (l : list HashDiff) : Permutation (sortByName l) l.
Proof.
  induction l as [|h l IH]; simpl; [reflexivity|].
  rewrite insertByName_perm. now constructor.
Qed.

Lemma DiffFiles_run (c : Client) (opt : DiffFilesOptions) (paths : list File)
      (entries : list IndexEntry) :
  LsFiles c paths = Val entries ->
  DiffFiles c opt paths = (events c entries, Val (sortByName (emitted c entries))).
Proof.
  intros H. unfold DiffFiles. rewrite H, diffLoop_spec. reflexivity.
Qed.

Lemma emitted_In (c : Client) (entries : list IndexEntry) (h : HashDiff) :
  In h (emitted c entries)
  <-> exists idx, In idx entries /\ snd (diffEntry c idx) = Some h.
Proof.
  unfold emitted. rewrite in_flat_map. split.
  - intros (idx & Hin & Hh). exists idx; split; [exact Hin|].
    destruct (snd (diffEntry c idx)); simpl in Hh; [|contradiction].
    destruct Hh as [->|[]]; reflexivity.
  - intros (idx & Hin & Hh). exists idx; split; [exact Hin|].
    rewrite Hh; now left.
Qed.

Lemma events_In (c : Client) (entries : list IndexEntry) (ev : event) :
  In ev (events c entries)
  <-> exists idx, In idx entries /\ In ev (fst (diffEntry c idx)).
Proof. unfold events. apply in_flat_map. Qed.

(** Every diff carries the path of the entry it comes from. *)
Lemma diffEntry_Path (c : Client) (idx : IndexEntry) (h : HashDiff) :
  snd (diffEntry c idx) = Some h -> Path h = PathName idx.
Proof.
  unfold diffEntry.
  destruct (FilePath c (PathName idx)) as [f|e]; simpl;
    [|now intros [= <-]].
  destruct (Exists c f); simpl; [|now intros [= <-]].
  destruct (Lstat c f) as [stat|e]; simpl; [|now intros [= <-]].
  destruct (IsDir (st_mode stat)); simpl; [now intros [= <-]|].
  destruct (CompareStat c idx f) as [err|]; simpl; [now intros [= <-]|].
  destruct (HashFile c f) as [hash|e]; simpl; [|now intros [= <-]].
  destruct (String.eqb hash (idxSha1 (Fixed idx))); simpl;
    [discriminate | now intros [= <-]].
Qed.

(** C5: an entry whose path cannot be located, is absent, cannot be
    [Lstat]ed or is a directory gives a diff whose file-system side is the
    empty [TreeEntry] with size 0, the loop goes on over all entries, and
    [DiffFiles] fails only when listing the index fails. *)
Theorem DiffFiles_missing_file (c : Client) (opt : DiffFilesOptions)
        (paths : list File) :
  (forall e, snd (DiffFiles c opt paths) = Fail e <-> LsFiles c paths = Fail e)
  /\ forall entries idx,
       LsFiles c paths = Val entries ->
       In idx entries ->
       ((exists e, FilePath c (PathName idx) = Fail e)
        \/ exists f, FilePath c (PathName idx) = Val f
             /\ (Exists c f = false
                 \/ (exists e, Lstat c f = Fail e)
                 \/ exists stat, Lstat c f = Val stat
                                 /\ IsDir (st_mode stat) = true)) ->
       diffEntry c idx = ([], Some (deletedDiff idx))
       /\ FsSide (deletedDiff idx) = emptyTreeEntry
       /\ FsSize (deletedDiff idx) = 0%Z
       /\ exists diffs,
            snd (DiffFiles c opt paths) = Val diffs
            /\ In (deletedDiff idx) diffs
            /\ Permutation diffs (emitted c entries).
Proof.
  split.
  - intros e. unfold DiffFiles.
    destruct (LsFiles c paths) as [entries|e']; simpl.
    + destruct (diffLoop c entries [] []); simpl. split; discriminate.
    + split; intros [= ->]; reflexivity.
  - intros entries idx Hls Hin Hgone.
    assert (Hd : diffEntry c idx = ([], Some (deletedDiff idx))).
    { unfold diffEntry, deletedDiff.
      destruct Hgone as [[e ->]|(f & -> & [Hx|[[e Hl]|(stat & Hl & Hdir)]])];
        [reflexivity| | |].
      - now rewrite Hx.
      - destruct (Exists c f); simpl; [now rewrite Hl | reflexivity].
      - destruct (Exists c f); simpl; [now rewrite Hl, Hdir | reflexivity]. }
    split; [exact Hd|]. split; [reflexivity|]. split; [reflexivity|].
    exists (sortByName (emitted c entries)).
    rewrite (DiffFiles_run c opt paths entries Hls); simpl.
    split; [reflexivity|]. split; [|apply sortByName_perm].
    apply (Permutation_in _ (Permutation_sym (sortByName_perm _))).
    apply emitted_In. exists idx. now rewrite Hd.
Qed.

Lemma DiffFiles_missing_file_witness :
  LsFiles (repository false None shaA) [] = Val [fooEntry]
  /\ In fooEntry [fooEntry]
  /\ Exists (repository false None shaA) "foo" = false
  /\ diffEntry (repository false None shaA) fooEntry
     = ([], Some (deletedDiff fooEntry)).
Proof.
  split; [reflexivity|]. split; [now left|]. split; [reflexivity|].
  refine (proj1 (proj2 (DiffFiles_missing_file (repository false None shaA)
                          noOptions []) [fooEntry] fooEntry eq_refl
                       (or_introl eq_refl) _)).
  right. exists "foo". split; [reflexivity|]. now left.
Defined.

Lemma onDisk_foo (stat : option error) (content : Sha1) :
  onDisk (repository true stat content) fooEntry "foo" fooStat.
Proof. repeat split. Qed.

(** C3, as the specification words it, fails: the stat metadata of [foo]
    agrees with the index, and yet the file is hashed and, its content
    having changed, reported. *)
Lemma DiffFiles_stat_agrees_counterexample :
  ~ skippedWhenStatAgrees (repository true None shaB) noOptions [] fooEntry.
Proof.
  intros H.
  destruct (H "foo" fooStat (onDisk_foo None shaB) eq_refl) as [_ Hn].
  apply Hn. vm_compute. now left.
Qed.

(** C3, amended: when the stat metadata agrees, the file is hashed; no diff
    is emitted for the entry when the hash is the stored one, and a diff is
    emitted when hashing fails or gives another hash. *)
Theorem DiffFiles_stat_agrees (c : Client) (idx : IndexEntry) (f : File)
        (stat : FileInfo) :
  onDisk c idx f stat ->
  CompareStat c idx f = None ->
  diffEntry c idx
  = ([Hashed f],
     match HashFile c f with
     | Val hash =>
         if String.eqb hash (idxSha1 (Fixed idx)) then None
         else Some (modifiedDiff idx stat)
     | Fail _ => Some (modifiedDiff idx stat)
     end)
  /\ forall opt paths entries,
       LsFiles c paths = Val entries ->
       In idx entries ->
       exists log diffs,
         DiffFiles c opt paths = (log, Val diffs)
         /\ In (Hashed f) log
         /\ (HashFile c f <> Val (idxSha1 (Fixed idx)) ->
             In (modifiedDiff idx stat) diffs)
         /\ (HashFile c f = Val (idxSha1 (Fixed idx)) ->
             (forall other, In other entries ->
                            PathName other = PathName idx -> other = idx) ->
             forall d, In d diffs -> Path d <> PathName idx).
Proof.
  intros (Hf & Hx & Hl & Hdir) Hs.
  assert (Hd : diffEntry c idx
               = ([Hashed f],
                  match HashFile c f with
                  | Val hash =>
                      if String.eqb hash (idxSha1 (Fixed idx)) then None
                      else Some (modifiedDiff idx stat)
                  | Fail _ => Some (modifiedDiff idx stat)
                  end)).
  { unfold diffEntry. rewrite Hf, Hx; simpl. rewrite Hl, Hdir, Hs.
    destruct (HashFile c f) as [hash|e]; [|reflexivity].
    now destruct (String.eqb hash (idxSha1 (Fixed idx))). }
  split; [exact Hd|].
  intros opt paths entries Hls Hin.
  exists (events c entries), (sortByName (emitted c entries)).
  split; [now apply DiffFiles_run|]. split; [|split].
  - apply events_In. exists idx. rewrite Hd. split; [exact Hin | now left].
  - intros Hne.
    apply (Permutation_in _ (Permutation_sym (sortByName_perm _))).
    apply emitted_In. exists idx. split; [exact Hin|]. rewrite Hd; simpl.
    destruct (HashFile c f) as [hash|e]; [|reflexivity].
    destruct (String.eqb hash (idxSha1 (Fixed idx))) eqn:E; [|reflexivity].
    apply String.eqb_eq in E. congruence.
  - intros Heq Huniq d Hdin Hp.
    apply (Permutation_in _ (sortByName_perm _)) in Hdin.
    apply emitted_In in Hdin as (other & Ho & Hsome).
    pose proof (diffEntry_Path c other d Hsome) as Hpo.
    assert (other = idx) as -> by (apply Huniq; [exact Ho | congruence]).
    rewrite Hd, Heq, String.eqb_refl in Hsome. discriminate.
Qed.

Lemma DiffFiles_stat_agrees_witness :
  onDisk (repository true None shaB) fooEntry "foo" fooStat
  /\ CompareStat (repository true None shaB) fooEntry "foo" = None
  /\ diffEntry (repository true None shaB) fooEntry
     = ([Hashed "foo"], Some (modifiedDiff fooEntry fooStat)).
Proof.
  split; [apply onDisk_foo|]. split; [reflexivity|].
  exact (proj1 (DiffFiles_stat_agrees (repository true None shaB) fooEntry
                  "foo" fooStat (onDisk_foo None shaB) eq_refl)).
Defined.

(** C4, as the specification words it, fails: the stat metadata of [foo]
    disagrees with the index, its content is the indexed one, and yet it
    is reported, without being hashed. *)
Lemma DiffFiles_stat_differs_counterexample :
  ~ rehashedWhenStatDiffers (repository true (Some "mtime") shaA)
      noOptions [] fooEntry.
Proof.
  intros H.
  destruct (H "foo" fooStat "mtime" (onDisk_foo _ _) eq_refl) as [Hh _].
  vm_compute in Hh. destruct Hh as [Hh|[]]. discriminate Hh.
Qed.

(** C4, amended: when the stat metadata disagrees, a diff is emitted for the
    entry, with the mode and the size of the file on disk, and the file is
    not hashed: the mismatch is logged and the content is not looked at. *)
Theorem DiffFiles_stat_differs (c : Client) (idx : IndexEntry) (f : File)
        (stat : FileInfo) (err : error) :
  onDisk c idx f stat ->
  CompareStat c idx f = Some err ->
  diffEntry c idx
  = ([Logged ("Stat information does not match for " ++ f ++ ": " ++ err
              ++ newline)],
     Some (modifiedDiff idx stat))
  /\ (forall name, ~ In (Hashed name) (fst (diffEntry c idx)))
  /\ forall opt paths entries,
       LsFiles c paths = Val entries ->
       In idx entries ->
       exists log diffs,
         DiffFiles c opt paths = (log, Val diffs)
         /\ In (modifiedDiff idx stat) diffs.
Proof.
  intros (Hf & Hx & Hl & Hdir) Hs.
  assert (Hd : diffEntry c idx
               = ([Logged ("Stat information does not match for " ++ f
                           ++ ": " ++ err ++ newline)],
                  Some (modifiedDiff idx stat))).
  { unfold diffEntry. rewrite Hf, Hx; simpl. now rewrite Hl, Hdir, Hs. }
  split; [exact Hd|]. split.
  - intros name. rewrite Hd. simpl. intros [Hc|[]]. discriminate Hc.
  - intros opt paths entries Hls Hin.
    exists (events c entries), (sortByName (emitted c entries)).
    split; [now apply DiffFiles_run|].
    apply (Permutation_in _ (Permutation_sym (sortByName_perm _))).
    apply emitted_In. exists idx. now rewrite Hd.
Qed.

Lemma DiffFiles_stat_differs_witness :
  onDisk (repository true (Some "mtime") shaA) fooEntry "foo" fooStat
  /\ CompareStat (repository true (Some "mtime") shaA) fooEntry "foo"
     = Some "mtime"
  /\ HashFile (repository true (Some "mtime") shaA) "foo"
     = Val (idxSha1 (Fixed fooEntry))
  /\ exists log diffs,
       DiffFiles (repository true (Some "mtime") shaA) noOptions []
       = (log, Val diffs)
       /\ In (modifiedDiff fooEntry fooStat) diffs.
Proof.
  split; [apply onDisk_foo|]. split; [reflexivity|]. split; [reflexivity|].
  exact (proj2 (proj2 (DiffFiles_stat_differs
                         (repository true (Some "mtime") shaA) fooEntry "foo"
                         fooStat "mtime" (onDisk_foo _ _) eq_refl))
               noOptions [] [fooEntry] eq_refl (or_introl eq_refl)).
Defined.

(** * Further properties of the sources *)

(** ** ShowRef: the options it reads *)

Lemma appendRef_opts c o1 o2 vals ref :
  Dereference o1 = Dereference o2 ->
  appendRef c o1 vals ref = appendRef c o2 vals ref.
Proof. intros H. unfold appendRef, getDeref. now rewrite H. Qed.

Lemma selectRef_opts c o1 o2 patterns vals ref :
  Dereference o1 = Dereference o2 ->
  selectRef c o1 patterns vals ref = selectRef c o2 patterns vals ref.
Proof.
  intros H. unfold selectRef.
  destruct (List.length patterns =? 0)%nat; [now apply appendRef_opts|].
  induction patterns as [|p rest IH]; simpl; [reflexivity|].
  destruct (Matches ref p); [now apply appendRef_opts | exact IH].
Qed.

Lemma walkRefs_opts c o1 o2 patterns visits :
  Dereference o1 = Dereference o2 ->
  forall vals,
  walkRefs c o1 patterns vals visits = walkRefs c o2 patterns vals visits.
Proof.
  intros H. induction visits as [|[path [[|]|]] rest IH]; intros vals; simpl;
    try reflexivity; [apply IH|].
  apply bind_ext; intros ref. rewrite (selectRef_opts c o1 o2) by exact H.
  apply bind_ext; intros a. apply IH.
Qed.

Lemma listRefs_opts c o1 o2 patterns dir names :
  Dereference o1 = Dereference o2 ->
  forall vals,
  listRefs c o1 patterns dir vals names = listRefs c o2 patterns dir vals names.
Proof.
  intros H. induction names as [|n rest IH]; intros vals; simpl;
    [reflexivity|].
  apply bind_ext; intros ref. rewrite (selectRef_opts c o1 o2) by exact H.
  apply bind_ext; intros a. apply IH.
Qed.

Lemma verifyRefs_opts c o1 o2 patterns :
  Dereference o1 = Dereference o2 ->
  forall vals, verifyRefs c o1 vals patterns = verifyRefs c o2 vals patterns.
Proof.
  intros H. induction patterns as [|p rest IH]; intros vals; simpl;
    [reflexivity|].
  destruct (negb (Exists c (GitDirFile c p))); [reflexivity|].
  apply bind_ext; intros ref. rewrite (appendRef_opts c o1 o2) by exact H.
  apply bind_ext; intros a. apply IH.
Qed.

Lemma enumerateRefs_opts c o1 o2 patterns vals :
  Heads o1 = Heads o2 -> Tags o1 = Tags o2 ->
  Dereference o1 = Dereference o2 ->
  enumerateRefs c o1 patterns vals = enumerateRefs c o2 patterns vals.
Proof.
  intros Hh Ht Hd. unfold enumerateRefs. rewrite Hh, Ht.
  destruct (Heads o2), (Tags o2); simpl.
  - destruct (ReadDir c (GitDirFile c "refs/heads")) as [heads|e]; simpl;
      [|reflexivity].
    rewrite (listRefs_opts c o1 o2) by exact Hd.
    apply bind_ext; intros vals1. apply bind_ext; intros tags.
    now apply listRefs_opts.
  - destruct (ReadDir c (GitDirFile c "refs/heads")) as [heads|e]; simpl;
      [|reflexivity].
    now rewrite (listRefs_opts c o1 o2) by exact Hd.
  - apply bind_ext; intros tags. now apply listRefs_opts.
  - now apply walkRefs_opts.
Qed.

(** X1: the refs [ShowRef] returns depend on [IncludeHead], [Tags], [Heads],
    [Dereference] and [Verify] only: [Sha1Only], [Abbrev], [Quiet] and
    [ExcludeExisting] change nothing. *)
Theorem ShowRef_reads_five_options (c : Client) (o1 o2 : ShowRefOptions)
        (patterns : list string) :
  sameListing o1 o2 ->
  ShowRef c o1 patterns = ShowRef c o2 patterns.
Proof.
  intros (Hi & Ht & Hh & Hd & Hv). rewrite !ShowRef_unfold, Hv.
  destruct (Verify o2); [now apply verifyRefs_opts|].
  unfold headRefs. rewrite Hi. now apply enumerateRefs_opts.
Qed.

Lemma ShowRef_reads_five_options_witness :
  sameListing (showRefOptions true false)
    (mkShowRefOptions true false false false true false 7 true "refs/heads")
  /\ ShowRef tagged (showRefOptions true false) []
     = ShowRef tagged
         (mkShowRefOptions true false false false true false 7 true "refs/heads")
         [].
Proof.
  assert (H : sameListing (showRefOptions true false)
    (mkShowRefOptions true false false false true false 7 true "refs/heads"))
    by (repeat split).
  split; [exact H|].
  exact (ShowRef_reads_five_options tagged _ _ [] H).
Defined.

(** ** ShowRef without [Dereference] *)

Lemma appendRef_plain c opts vals ref :
  Dereference opts = false ->
  appendRef c opts vals ref = Ok (vals ++ [ref])%list.
Proof. intros H. unfold appendRef, getDeref. now rewrite H. Qed.

Lemma selectRef_plain c opts patterns vals ref :
  Dereference opts = false ->
  selectRef c opts patterns vals ref
  = Ok (if selects patterns ref then (vals ++ [ref])%list else vals).
Proof.
  intros H. unfold selectRef, selects.
  destruct (List.length patterns =? 0)%nat; simpl;
    [now apply appendRef_plain|].
  induction patterns as [|p rest IH]; simpl; [reflexivity|].
  destruct (Matches ref p); simpl; [now apply appendRef_plain | exact IH].
Qed.

Lemma listRefs_plain c opts patterns dir names refs :
  Dereference opts = false ->
  Forall2 (fun n r => parseRef c (dir ++ n) = Ok r) names refs ->
  forall vals,
  listRefs c opts patterns dir vals names
  = Ok (vals ++ filter (selects patterns) refs)%list.
Proof.
  intros Hd HF. induction HF as [|n r names refs Hp HF IH]; intros vals;
    simpl; [now rewrite app_nil_r|].
  rewrite Hp. simpl. rewrite selectRef_plain by exact Hd. simpl.
  rewrite IH. destruct (selects patterns r); simpl;
    now rewrite <- ?app_assoc.
Qed.

Lemma walkRefs_plain c opts patterns visits :
  Dereference opts = false ->
  Forall (fun v => snd v <> None) visits ->
  forall refs,
  Forall2 (fun path r => parseRef c (TrimPrefix path (GitDir c)) = Ok r)
          (filePaths visits) refs ->
  forall vals,
  walkRefs c opts patterns vals visits
  = Ok (vals ++ filter (selects patterns) refs)%list.
Proof.
  intros Hd Hn. induction Hn as [|[path info] rest Hi Hn IH];
    intros refs HF vals.
  - inversion HF; subst. simpl. now rewrite app_nil_r.
  - destruct info as [[|]|]; simpl in *; [now apply IH| |contradiction].
    inversion HF as [|p r ps rs Hp HF']; subst.
    rewrite Hp. simpl. rewrite selectRef_plain by exact Hd. simpl.
    rewrite (IH rs HF'). destruct (selects patterns r); simpl;
      now rewrite <- ?app_assoc.
Qed.

(** X2: with [Heads] alone, [ShowRef] returns the HEAD entry, if asked for
    and resolved, followed by the branches of [refs/heads] in directory
    order: all of them when there is no pattern, otherwise those matching
    some pattern, each once even when several patterns match. *)
Theorem ShowRef_heads_filtered (c : Client) (opts : ShowRefOptions)
        (patterns names : list string) (refs : list Ref) :
  Verify opts = false -> Heads opts = true -> Tags opts = false ->
  Dereference opts = false ->
  ReadDir c (GitDirFile c "refs/heads") = Val names ->
  Forall2 (fun n r => parseRef c ("refs/heads/" ++ n) = Ok r) names refs ->
  ShowRef c opts patterns
  = Ok (headRefs c opts ++ filter (selects patterns) refs)%list.
Proof.
  intros Hv Hh Ht Hd Hr HF.
  rewrite ShowRef_unfold, Hv. unfold enumerateRefs. rewrite Hh, Ht, Hr. simpl.
  now rewrite (listRefs_plain c opts patterns "refs/heads/" names refs Hd HF).
Qed.

Lemma ShowRef_heads_filtered_witness :
  ShowRef tagged (mkShowRefOptions true false true false false false 0 false "")
    ["master"; "heads/master"; "v1"]
  = Ok [mkRef "HEAD" shaA; masterRef].
Proof.
  refine (ShowRef_heads_filtered tagged
            (mkShowRefOptions true false true false false false 0 false "")
            ["master"; "heads/master"; "v1"] ["master"] [masterRef]
            eq_refl eq_refl eq_refl eq_refl eq_refl _).
  repeat constructor.
Defined.

(** X3: with neither [Heads] nor [Tags], [ShowRef] returns the HEAD entry
    followed by the refs of the files [filepath.Walk] reports under [refs],
    in walk order, filtered by the patterns; directories give no ref. *)
Theorem ShowRef_walk_filtered (c : Client) (opts : ShowRefOptions)
        (patterns : list string) (refs : list Ref) :
  Verify opts = false -> Heads opts = false -> Tags opts = false ->
  Dereference opts = false ->
  Forall (fun v => snd v <> None) (Walk c (GitDirFile c "refs")) ->
  Forall2 (fun path r => parseRef c (TrimPrefix path (GitDir c)) = Ok r)
          (filePaths (Walk c (GitDirFile c "refs"))) refs ->
  ShowRef c opts patterns
  = Ok (headRefs c opts ++ filter (selects patterns) refs)%list.
Proof.
  intros Hv Hh Ht Hd Hn HF.
  rewrite ShowRef_unfold, Hv. unfold enumerateRefs. rewrite Hh, Ht. simpl.
  now apply walkRefs_plain.
Qed.

Lemma ShowRef_walk_filtered_witness :
  ShowRef tagged (showRefOptions false false) ["v1"] = Ok [tagRef].
Proof.
  refine (ShowRef_walk_filtered tagged (showRefOptions false false) ["v1"]
            [masterRef; tagRef] eq_refl eq_refl eq_refl eq_refl _ _).
  - repeat constructor; discriminate.
  - repeat constructor.
Defined.

(** X4: with [Heads] and [Tags] both set, [ShowRef] returns what it returns
    for [Heads] alone followed by what it returns for [Tags] alone (HEAD
    left out of the second), and fails as soon as either does. *)
Theorem ShowRef_heads_then_tags (c : Client) (opts : ShowRefOptions)
        (patterns : list string) :
  Verify opts = false -> Heads opts = true -> Tags opts = true ->
  ShowRef c opts patterns
  = (hs <- ShowRef c (withHeadsTags true false opts) patterns ;;
     ts <- ShowRef c (withHeadsTags false true (withIncludeHead false opts))
             patterns ;;
     Ok (hs ++ ts)%list).
Proof.
  intros Hv Hh Ht. rewrite !ShowRef_unfold. simpl. rewrite Hv.
  unfold enumerateRefs, headRefs. simpl. rewrite Hh, Ht. simpl.
  set (vals := if IncludeHead opts then _ else _).
  destruct (ReadDir c (GitDirFile c "refs/heads")) as [heads|e]; simpl;
    [|reflexivity].
  rewrite (listRefs_opts c (withHeadsTags true false opts) opts) by reflexivity.
  destruct (listRefs c opts patterns "refs/heads/" vals heads) as [hs|e|];
    simpl; try reflexivity.
  destruct (ReadDir c (GitDirFile c "refs/tags")) as [tags|e]; simpl;
    [|reflexivity].
  rewrite (listRefs_opts c (withHeadsTags false true (withIncludeHead false opts))
             opts) by reflexivity.
  pose proof (listRefs_prefix c opts patterns "refs/tags/" hs tags []) as E.
  rewrite app_nil_r in E. exact E.
Qed.

Lemma ShowRef_heads_then_tags_witness :
  ShowRef tagged (mkShowRefOptions true true true false false false 0 false "") []
  = Ok [mkRef "HEAD" shaA; masterRef; tagRef].
Proof.
  exact (ShowRef_heads_then_tags tagged
           (mkShowRefOptions true true true false false false 0 false "") []
           eq_refl eq_refl eq_refl).
Defined.

Lemma walkRefs_directories c opts patterns dirs rest :
  Forall (fun v => snd v = Some true) dirs ->
  forall vals,
  walkRefs c opts patterns vals (dirs ++ rest)%list
  = walkRefs c opts patterns vals rest.
Proof.
  intros H. induction H as [|[path info] dirs Hd H IH]; intros vals;
    [reflexivity|].
  simpl in Hd. subst info. simpl. apply IH.
Qed.

(** X5: when [filepath.Walk] reports a path it could not stat (a nil
    [FileInfo]), as it does for a missing [refs] directory, and only
    directories came before it, [ShowRef] panics instead of returning the
    error. *)
Theorem ShowRef_walk_nil_info_panics (c : Client) (opts : ShowRefOptions)
        (patterns : list string) (dirs rest : list (string * option bool))
        (path : string) :
  Verify opts = false -> Heads opts = false -> Tags opts = false ->
  Walk c (GitDirFile c "refs") = (dirs ++ (path, None) :: rest)%list ->
  Forall (fun v => snd v = Some true) dirs ->
  ShowRef c opts patterns = Panic.
Proof.
  intros Hv Hh Ht Hw Hd.
  rewrite ShowRef_unfold, Hv. unfold enumerateRefs. rewrite Hh, Ht, Hw. simpl.
  now rewrite walkRefs_directories.
Qed.

Lemma ShowRef_walk_nil_info_panics_witness :
  ShowRef (withWalk [(".git/refs", None)] tagged) (showRefOptions true false) []
  = Panic.
Proof.
  exact (ShowRef_walk_nil_info_panics (withWalk [(".git/refs", None)] tagged)
           (showRefOptions true false) [] [] [] ".git/refs"
           eq_refl eq_refl eq_refl eq_refl (Forall_nil _)).
Defined.

Lemma verifyRefs_plain c opts patterns refs :
  Dereference opts = false ->
  Forall2 (fun p r => Exists c (GitDirFile c p) = true /\ parseRef c p = Ok r)
          patterns refs ->
  forall vals, verifyRefs c opts vals patterns = Ok (vals ++ refs)%list.
Proof.
  intros Hd HF. induction HF as [|p r ps rs [Hx Hp] HF IH]; intros vals;
    simpl; [now rewrite app_nil_r|].
  rewrite Hx, Hp. simpl. rewrite appendRef_plain by exact Hd. simpl.
  rewrite IH. now rewrite <- app_assoc.
Qed.

(** X6: under [Verify], when every pattern names an existing file that
    parses, [ShowRef] returns one ref for each pattern, in the order of
    the patterns; HEAD is not added and [Heads] and [Tags] are not
    looked at. *)
Theorem ShowRef_verify_all_present (c : Client) (opts : ShowRefOptions)
        (patterns : list string) (refs : list Ref) :
  Verify opts = true -> Dereference opts = false ->
  Forall2 (fun p r => Exists c (GitDirFile c p) = true /\ parseRef c p = Ok r)
          patterns refs ->
  ShowRef c opts patterns = Ok refs.
Proof.
  intros Hv Hd HF. rewrite ShowRef_unfold, Hv.
  now rewrite (verifyRefs_plain c opts patterns refs Hd HF).
Qed.

Lemma ShowRef_verify_all_present_witness :
  ShowRef tagged (mkShowRefOptions true true true false false true 0 false "")
    ["refs/tags/v1"; "refs/heads/master"]
  = Ok [tagRef; masterRef].
Proof.
  apply ShowRef_verify_all_present; try reflexivity.
  repeat constructor.
Defined.

(** X7: under [Verify] with [Dereference], a single pattern naming a ref
    gives the ref alone unless its object is a tag; a tag is followed by
    the entry [name^{}] holding the first revision [RevParse] gives for
    [name^0]; an error of [RevParse] fails the call, and an empty answer
    makes it panic. *)
Theorem ShowRef_dereference_tag (c : Client) (opts : ShowRefOptions)
        (p : string) (r : Ref) :
  Verify opts = true -> Dereference opts = true ->
  Exists c (GitDirFile c p) = true ->
  parseRef c p = Ok r ->
  ShowRef c opts [p]
  = if String.eqb (TypeOf c (Value r)) "tag" then
      match RevParse c [Name r ++ "^0"] with
      | Val (id :: _) => Ok [r; mkRef (Name r ++ "^{}") id]
      | Val [] => Panic
      | Fail e => Err e
      end
    else Ok [r].
Proof.
  intros Hv Hd Hx Hp. rewrite ShowRef_unfold, Hv. simpl.
  rewrite Hx, Hp. simpl. unfold appendRef, getDeref. rewrite Hd. simpl.
  destruct (String.eqb (TypeOf c (Value r)) "tag"); [|reflexivity].
  destruct (RevParse c [Name r ++ "^0"]) as [[|id ids]|e]; reflexivity.
Qed.

Lemma ShowRef_dereference_tag_witness :
  ShowRef tagged (mkShowRefOptions false false false true false true 0 false "")
    ["refs/tags/v1"]
  = Ok [tagRef; mkRef "refs/tags/v1^{}" shaA].
Proof.
  exact (ShowRef_dereference_tag tagged
           (mkShowRefOptions false false false true false true 0 false "")
           "refs/tags/v1" tagRef eq_refl eq_refl eq_refl eq_refl).
Defined.

(** ** parseRef *)

Lemma TrimPrefix_append (a b : string) : TrimPrefix (a ++ b) a = b.
Proof.
  unfold TrimPrefix, HasPrefix. rewrite length_append, take_append.
  replace (String.length a <=? String.length a + String.length b)%nat
    with true by (symmetry; apply Nat.leb_le; lia).
  rewrite String.eqb_refl. simpl. apply drop_append.
Qed.

Lemma parseRef_Name (c : Client) (filename : string) (r : Ref) :
  parseRef c filename = Ok r -> Name r = TrimPrefix filename "/".
Proof.
  unfold parseRef.
  destruct (ReadFile c (GitDirFile c (TrimPrefix filename "/"))) as [data|e];
    simpl; [|discriminate].
  destruct (HasPrefix data "ref: ").
  - destruct (SymbolicRefGet c (TrimPrefix filename "/")) as [d|e]; simpl;
      [|discriminate].
    destruct (RefSpecSha1 c d) as [sha1|e]; simpl; [|discriminate].
    now intros [= <-].
  - destruct (Sha1FromString c (data)) as [sha1|e]; simpl; [|discriminate].
    now intros [= <-].
Qed.

(** X8: the refs of the walk are named relative to the git directory: for
    a file [<gitdir>/<rel>], the callback of [ShowRef] parses exactly as
    [parseRef] does on [rel], and a ref it gives is named [rel]. *)
Theorem parseRef_walk_path (c : Client) (rel : string) :
  HasPrefix rel "/" = false ->
  parseRef c (TrimPrefix (GitDir c ++ "/" ++ rel) (GitDir c)) = parseRef c rel
  /\ forall r, parseRef c rel = Ok r -> Name r = rel.
Proof.
  intros H.
  assert (E1 : TrimPrefix ("/" ++ rel) "/" = rel) by apply TrimPrefix_append.
  assert (E2 : TrimPrefix rel "/" = rel) by (unfold TrimPrefix; now rewrite H).
  split.
  - rewrite TrimPrefix_append. unfold parseRef. now rewrite E1, E2.
  - intros r Hr. apply parseRef_Name in Hr. now rewrite Hr.
Qed.

Lemma parseRef_walk_path_witness :
  parseRef tagged (TrimPrefix masterFile (GitDir tagged)) = Ok masterRef.
Proof.
  exact (eq_trans (proj1 (parseRef_walk_path tagged "refs/heads/master" eq_refl))
                  eq_refl).
Defined.

(** ** Ref.CommitID and Ref.TreeID *)

(** X9: a ref converts to a commit exactly when its object is a commit, and
    then its tree is the tree of that commit; a ref whose object is a tree
    is its own tree; a ref to anything else, a tag included, converts to
    neither: tags are not peeled. *)
Theorem Ref_CommitID_TreeID (CommitTreeID : Client -> CommitID -> result TreeID)
        (c : Client) (r : Ref) :
  (forall id, Ref_CommitID c r = Val id
              <-> TypeOf c (Value r) = "commit" /\ id = Value r)
  /\ (forall id, Ref_CommitID c r = Val id ->
                 Ref_TreeID CommitTreeID c r = CommitTreeID c id)
  /\ (TypeOf c (Value r) = "tree" ->
      Ref_TreeID CommitTreeID c r = Val (Value r))
  /\ (TypeOf c (Value r) <> "commit" -> TypeOf c (Value r) <> "tree" ->
      Ref_CommitID c r = Fail ("Can not convert " ++ Name r ++ " to commit")
      /\ Ref_TreeID CommitTreeID c r
         = Fail ("Can not get tree for " ++ Name r)).
Proof.
  unfold Ref_CommitID, Ref_TreeID.
  destruct (String.eqb (TypeOf c (Value r)) "commit") eqn:Ec.
  - apply String.eqb_eq in Ec.
    split; [|split; [|split]].
    + intros id; split; [intros [= <-]; now split | intros [_ ->]; reflexivity].
    + now intros id [= <-].
    + rewrite Ec. discriminate.
    + intros Hc; contradiction.
  - apply String.eqb_neq in Ec.
    split; [|split; [|split]].
    + intros id; split; [discriminate | intros [Ht _]; contradiction].
    + discriminate.
    + intros Ht. now rewrite Ht.
    + intros _ Ht. apply String.eqb_neq in Ht. now rewrite Ht.
Qed.

Lemma Ref_CommitID_TreeID_witness :
  Ref_CommitID tagged tagRef
  = Fail "Can not convert refs/tags/v1 to commit"
  /\ Ref_TreeID (fun _ _ => Val shaA) tagged tagRef
     = Fail "Can not get tree for refs/tags/v1".
Proof.
  refine (proj2 (proj2 (proj2 (Ref_CommitID_TreeID (fun _ _ => Val shaA)
                                 tagged tagRef))) _ _);
    discriminate.
Defined.

(** ** TrimSpace *)

Lemma length_drop (n : nat) (s : string) :
  String.length (drop n s) = String.length s - n.
Proof.
  revert s; induction n as [|n IH]; intros [|c s]; simpl; try reflexivity.
  apply IH.
Qed.

Lemma length_take (n : nat) (s : string) :
  String.length (take n s) = Nat.min n (String.length s).
Proof.
  revert s; induction n as [|n IH]; intros [|c s]; simpl; try reflexivity.
  now rewrite IH.
Qed.

Lemma take_take (j m : nat) (s : string) :
  take j (take m s) = take (Nat.min j m) s.
Proof.
  revert m s; induction j as [|j IH]; intros [|m] [|c s]; simpl;
    try reflexivity.
  now rewrite IH.
Qed.

Lemma take_all (n : nat) (s : string) :
  String.length s <= n -> take n s = s.
Proof.
  revert s; induction n as [|n IH]; intros [|c s]; simpl; intros H;
    try reflexivity; [lia|].
  rewrite IH; [reflexivity | lia].
Qed.

Lemma isUnicodeSpace_length (u : string) :
  isUnicodeSpace u = true -> String.length u = 2 \/ String.length u = 3.
Proof.
  unfold isUnicodeSpace. intros H.
  apply existsb_exists in H as (x & Hin & Hx).
  apply String.eqb_eq in Hx. subst x.
  unfold unicodeSpaces in Hin. simpl in Hin.
  repeat (destruct Hin as [<-|Hin]; [vm_compute; auto|]).
  contradiction.
Qed.

Lemma trimLeft_S (fuel : nat) (s : string) :
  trimLeft (S fuel) s
  = match leadingSpace s with
    | O => s
    | S k => trimLeft fuel (drop (S k) s)
    end.
Proof. reflexivity. Qed.

Lemma trimRight_S (fuel : nat) (s : string) :
  trimRight (S fuel) s
  = match trailingSpace s with
    | O => s
    | S k => trimRight fuel (take (String.length s - S k) s)
    end.
Proof. reflexivity. Qed.

Lemma trimLeft_trimmed (fuel : nat) :
  forall s, String.length s <= fuel -> leadingSpace (trimLeft fuel s) = 0.
Proof.
  induction fuel as [|fuel IH]; intros s H.
  - destruct s; [reflexivity | simpl in H; lia].
  - rewrite trimLeft_S. destruct (leadingSpace s) as [|k] eqn:E; [exact E|].
    apply IH. rewrite length_drop. lia.
Qed.

Lemma trimLeft_length (fuel : nat) :
  forall s, String.length (trimLeft fuel s) <= String.length s.
Proof.
  induction fuel as [|fuel IH]; intros s; [simpl; lia|].
  rewrite trimLeft_S. destruct (leadingSpace s) as [|k]; [lia|].
  etransitivity; [apply IH|]. rewrite length_drop. lia.
Qed.

Lemma trimRight_trimmed (fuel : nat) :
  forall s, String.length s <= fuel -> trailingSpace (trimRight fuel s) = 0.
Proof.
  induction fuel as [|fuel IH]; intros s H.
  - destruct s; [reflexivity | simpl in H; lia].
  - rewrite trimRight_S. destruct (trailingSpace s) as [|k] eqn:E; [exact E|].
    apply IH. rewrite length_take. lia.
Qed.

Lemma trimRight_take (fuel : nat) :
  forall s, exists n, trimRight fuel s = take n s.
Proof.
  induction fuel as [|fuel IH]; intros s.
  - exists (String.length s). now rewrite take_all.
  - rewrite trimRight_S. destruct (trailingSpace s) as [|k].
    + exists (String.length s). now rewrite take_all.
    + destruct (IH (take (String.length s - S k) s)) as [n Hn].
      rewrite Hn, take_take. eexists; reflexivity.
Qed.

(** A prefix of a string that starts with no white space starts with
    none. *)
Lemma leadingSpace_take (n : nat) (s : string) :
  leadingSpace s = 0 -> leadingSpace (take n s) = 0.
Proof.
  destruct s as [|c s]; [now destruct n|].
  destruct n as [|n]; [reflexivity|].
  change (take (S n) (String c s)) with (String c (take n s)).
  unfold leadingSpace.
  destruct (asciiSpace c); [discriminate|].
  destruct (N_of_ascii c <? 128)%N; [reflexivity|].
  change (String c (take n s)) with (take (S n) (String c s)).
  rewrite !take_take.
  destruct (isUnicodeSpace (take 2 (String c s))) eqn:E2; [discriminate|].
  destruct (isUnicodeSpace (take 3 (String c s))) eqn:E3; [discriminate|].
  intros _.
  assert (H2 : isUnicodeSpace (take (Nat.min 2 (S n)) (String c s)) = false).
  { destruct n as [|n]; [|exact E2].
    destruct (isUnicodeSpace (take (Nat.min 2 1) (String c s))) eqn:E;
      [|reflexivity].
    apply isUnicodeSpace_length in E. rewrite length_take in E.
    simpl in E. lia. }
  rewrite H2.
  assert (H3 : isUnicodeSpace (take (Nat.min 3 (S n)) (String c s)) = false).
  { destruct n as [|[|n]]; [| |exact E3].
    - destruct (isUnicodeSpace (take (Nat.min 3 1) (String c s))) eqn:E;
        [|reflexivity].
      apply isUnicodeSpace_length in E. rewrite length_take in E.
      simpl in E. lia.
    - exact E2. }
  now rewrite H3.
Qed.

Lemma TrimSpace_trimmed (s : string) :
  leadingSpace (TrimSpace s) = 0 /\ trailingSpace (TrimSpace s) = 0.
Proof.
  unfold TrimSpace. split.
  - destruct (trimRight_take (String.length s)
                (trimLeft (String.length s) s)) as [n ->].
    apply leadingSpace_take. now apply trimLeft_trimmed.
  - apply trimRight_trimmed. apply trimLeft_length.
Qed.

Lemma TrimSpace_fixed (s : string) :
  leadingSpace s = 0 -> trailingSpace s = 0 -> TrimSpace s = s.
Proof.
  intros Hl Hr. unfold TrimSpace.
  now rewrite trimLeft_fixed, trimRight_fixed.
Qed.

Lemma TrimSpace_idempotent (s : string) : TrimSpace (TrimSpace s) = TrimSpace s.
Proof. apply TrimSpace_fixed; apply TrimSpace_trimmed. Qed.

(** ** RefSpec.String and RefSpec.Value *)

(** X10: the string of a RefSpec neither starts nor ends with white space,
    and unless it still ends in a NUL byte it is its own normal form:
    taking [String] of it again changes nothing. *)
Theorem RefSpec_String_normal_form (r : RefSpec) :
  leadingSpace (RefSpec_String r) = 0
  /\ trailingSpace (RefSpec_String r) = 0
  /\ (HasSuffix (RefSpec_String r) (String NUL "") = false ->
      RefSpec_String (RefSpec_String r) = RefSpec_String r).
Proof.
  rewrite RefSpec_String_unfold.
  destruct (TrimSpace_trimmed (TrimSuffix r (String NUL ""))) as [Hl Hr].
  split; [exact Hl|]. split; [exact Hr|].
  intros Hn. rewrite RefSpec_String_unfold. unfold TrimSuffix at 1.
  rewrite Hn. apply TrimSpace_idempotent.
Qed.

Lemma RefSpec_String_normal_form_witness :
  RefSpec_String (RefSpec_String (" refs/heads/master" ++ newline))
  = RefSpec_String (" refs/heads/master" ++ newline).
Proof.
  exact (proj2 (proj2 (RefSpec_String_normal_form
                         (" refs/heads/master" ++ newline))) eq_refl).
Defined.

(** X11: [Value] reads the file addressed by the normalized name and
    returns its content without surrounding white space, together with
    the error of the read, whatever that error is. *)
Theorem RefSpec_Value_trimmed (c : Client) (r : RefSpec) :
  RefSpec_Value c r
  = (TrimSpace (fst (ReadAll c (GitDirFile c (RefSpec_String r)))),
     snd (ReadAll c (GitDirFile c (RefSpec_String r))))
  /\ leadingSpace (fst (RefSpec_Value c r)) = 0
  /\ trailingSpace (fst (RefSpec_Value c r)) = 0
  /\ TrimSpace (fst (RefSpec_Value c r)) = fst (RefSpec_Value c r).
Proof.
  unfold RefSpec_Value, RefSpec_File.
  destruct (ReadAll c (GitDirFile c (RefSpec_String r))) as [val err]. simpl.
  destruct (TrimSpace_trimmed val) as [Hl Hr].
  repeat split; auto. apply TrimSpace_idempotent.
Qed.

(** ** Branch *)

Lemma GetBranch_inv (InvalidBranch : error) (c : Client)
      (branchname : string) (b : Branch) :
  GetBranch InvalidBranch c branchname = Val b ->
  b = "refs/heads/" ++ branchname /\ Branch_Exists c b = true.
Proof.
  unfold GetBranch.
  destruct (Branch_Exists c ("refs/heads/" ++ branchname)) eqn:Hx; simpl;
    [|discriminate].
  intros [= <-]. now split.
Qed.

(** X12: a branch obtained from [GetBranch] exists and gives back the name
    it was made from; [GetBranch] fails with [InvalidBranch] exactly when
    the file of the branch does not exist. *)
Theorem GetBranch_BranchName (InvalidBranch : error) (c : Client)
        (branchname : string) :
  BranchName ("refs/heads/" ++ branchname) = branchname
  /\ (forall b, GetBranch InvalidBranch c branchname = Val b ->
        b = "refs/heads/" ++ branchname
        /\ Branch_Exists c b = true /\ BranchName b = branchname)
  /\ (Exists c (GitDirFile c ("refs/heads/" ++ branchname)) = false
      <-> GetBranch InvalidBranch c branchname = Fail InvalidBranch).
Proof.
  assert (E : BranchName ("refs/heads/" ++ branchname) = branchname)
    by apply TrimPrefix_append.
  split; [exact E|]. unfold GetBranch, Branch_Exists.
  destruct (Exists c (GitDirFile c ("refs/heads/" ++ branchname))) eqn:Hx;
    simpl.
  - split; [intros b [= <-]; now repeat split | split; discriminate].
  - split; [discriminate | now split].
Qed.

Lemma GetBranch_BranchName_witness :
  GetBranch "invalid branch" tagged "master" = Val "refs/heads/master"
  /\ BranchName "refs/heads/master" = "master".
Proof.
  split; [reflexivity|].
  exact (proj2 (proj2 (proj1 (proj2 (GetBranch_BranchName "invalid branch"
                                       tagged "master"))
                             "refs/heads/master" eq_refl))).
Defined.

Lemma plainEnds_intro (c : ascii) (s : string) (d : ascii) :
  lastByte (String c s) = Some d -> plainByte c = true -> plainByte d = true ->
  plainEnds (String c s) = true.
Proof. intros Hl Hc Hd. unfold plainEnds. now rewrite Hl, Hc, Hd. Qed.

(** X13: for a branch name ending in an ordinary byte, the file
    [Branch.CommitID] reads is the file whose existence [GetBranch]
    checked, and the commit is parsed from its content without the
    surrounding white space; an error of the read is returned as it is. *)
Theorem Branch_CommitID_reads_branch_file (InvalidBranch : error) (c : Client)
        (branchname : string) (b : Branch) (d : ascii) :
  GetBranch InvalidBranch c branchname = Val b ->
  lastByte branchname = Some d -> plainByte d = true ->
  RefSpec_File c b = GitDirFile c b
  /\ Exists c (RefSpec_File c b) = true
  /\ Branch_CommitID c b
     = match ReadAll c (GitDirFile c b) with
       | (_, Some err) => Fail err
       | (val, None) => Sha1FromString c (TrimSpace val)
       end.
Proof.
  intros Hg Hl Hd.
  destruct (GetBranch_inv InvalidBranch c branchname b Hg) as [-> Hx].
  assert (Hne : branchname <> "") by (intros ->; discriminate).
  assert (Hlast : lastByte ("refs/heads/" ++ branchname) = Some d)
    by now rewrite lastByte_append.
  assert (Hs : RefSpec_String ("refs/heads/" ++ branchname)
               = "refs/heads/" ++ branchname).
  { rewrite RefSpec_String_unfold.
    rewrite (TrimSuffix_no_NUL _ d Hlast)
      by now apply plainByte_inv in Hd.
    assert (Hp : plainEnds ("refs/heads/" ++ branchname) = true).
    { apply (plainEnds_intro "r" ("efs/heads/" ++ branchname) d);
        [exact Hlast | reflexivity | exact Hd]. }
    pose proof (TrimSpace_padded "" ("refs/heads/" ++ branchname) ""
                  eq_refl eq_refl Hp) as E.
    rewrite append_nil_r in E. exact E. }
  assert (Hf : RefSpec_File c ("refs/heads/" ++ branchname)
               = GitDirFile c ("refs/heads/" ++ branchname))
    by (unfold RefSpec_File; now rewrite Hs).
  split; [exact Hf|]. split; [rewrite Hf; exact Hx|].
  unfold Branch_CommitID, RefSpec_Value. rewrite Hf.
  destruct (ReadAll c (GitDirFile c ("refs/heads/" ++ branchname)))
    as [val [err|]]; reflexivity.
Qed.

Lemma Branch_CommitID_reads_branch_file_witness :
  Branch_CommitID tagged "refs/heads/master" = Val shaA.
Proof.
  exact (eq_trans
           (proj2 (proj2 (Branch_CommitID_reads_branch_file "invalid branch"
                            tagged "master" "refs/heads/master" "r"
                            eq_refl eq_refl eq_refl)))
           eq_refl).
Defined.

(** ** DiffFiles: what a diff holds *)

Lemma fsMode_cases (m : N) :
  fsMode m = ModeSymlink \/ fsMode m = ModeExec \/ fsMode m = ModeBlob.
Proof.
  unfold fsMode. destruct (negb (IsRegular m)); [now left|].
  destruct (negb (N.land (Perm m) 64 =? 0)%N); [right; now left|].
  right; now right.
Qed.

Lemma diffEntry_cases (c : Client) (idx : IndexEntry) (d : HashDiff) :
  snd (diffEntry c idx) = Some d ->
  d = deletedDiff idx \/ exists stat, d = modifiedDiff idx stat.
Proof.
  unfold diffEntry.
  destruct (FilePath c (PathName idx)) as [f|e]; simpl;
    [|intros [= <-]; now left].
  destruct (Exists c f); simpl; [|intros [= <-]; now left].
  destruct (Lstat c f) as [stat|e]; simpl; [|intros [= <-]; now left].
  destruct (IsDir (st_mode stat)); simpl; [intros [= <-]; now left|].
  destruct (CompareStat c idx f) as [err|]; simpl;
    [intros [= <-]; right; now exists stat|].
  destruct (HashFile c f) as [hash|e]; simpl;
    [|intros [= <-]; right; now exists stat].
  destruct (String.eqb hash (idxSha1 (Fixed idx))); simpl;
    [discriminate | intros [= <-]; right; now exists stat].
Qed.

Lemma emitted_length (c : Client) (entries : list IndexEntry) :
  List.length (emitted c entries) <= List.length entries.
Proof.
  unfold emitted. induction entries as [|idx rest IH]; simpl; [lia|].
  rewrite length_app. destruct (snd (diffEntry c idx)); simpl; lia.
Qed.

(** X14: [DiffFiles] reports at most one diff for each index entry, and
    every diff it reports carries the path, hash, mode and size of an
    index entry on its index side, while its file-system side never holds
    a hash: it is the empty entry with size 0 for a file that is gone, and
    otherwise the zero hash with the mode of a symlink, an executable or a
    blob, even when the file was hashed. *)
Theorem DiffFiles_diff_shape (c : Client) (opt : DiffFilesOptions)
        (paths : list File) (log : list event) (diffs : list HashDiff) :
  DiffFiles c opt paths = (log, Val diffs) ->
  exists entries,
    LsFiles c paths = Val entries
    /\ List.length diffs <= List.length entries
    /\ forall d, In d diffs ->
         teSha1 (FsSide d) = zeroSha1
         /\ In (FileMode (FsSide d)) fsModes
         /\ (FileMode (FsSide d) = 0%N -> FsSize d = 0%Z)
         /\ exists idx,
              In idx entries
              /\ Path d = PathName idx
              /\ IndexSide d
                 = mkTreeEntry (idxSha1 (Fixed idx)) (Mode (Fixed idx))
              /\ IndexSize d = uint (Z.of_N (Fsize (Fixed idx))).
Proof.
  intros H. destruct (LsFiles c paths) as [entries|e] eqn:Hls.
  - rewrite (DiffFiles_run c opt paths entries Hls) in H.
    injection H as _ <-. exists entries. split; [reflexivity|]. split.
    + rewrite (Permutation_length (sortByName_perm _)). apply emitted_length.
    + intros d Hd. apply (Permutation_in _ (sortByName_perm _)) in Hd.
      apply emitted_In in Hd as (idx & Hin & Hsome).
      destruct (diffEntry_cases c idx d Hsome) as [-> | [stat ->]]; simpl.
      * repeat split; [now left | exists idx; now repeat split].
      * split; [reflexivity|]. split.
        { destruct (fsMode_cases (st_mode stat)) as [E | [E | E]]; rewrite E;
            simpl; auto. }
        split.
        { destruct (fsMode_cases (st_mode stat)) as [E | [E | E]]; rewrite E;
            discriminate. }
        exists idx. now repeat split.
  - unfold DiffFiles in H. rewrite Hls in H. discriminate.
Qed.

Lemma DiffFiles_diff_shape_witness :
  exists entries,
    LsFiles (repository true (Some "mtime") shaA) [] = Val entries
    /\ List.length [modifiedDiff fooEntry fooStat] <= List.length entries
    /\ forall d, In d [modifiedDiff fooEntry fooStat] ->
         teSha1 (FsSide d) = zeroSha1
         /\ In (FileMode (FsSide d)) fsModes
         /\ (FileMode (FsSide d) = 0%N -> FsSize d = 0%Z)
         /\ exists idx,
              In idx entries
              /\ Path d = PathName idx
              /\ IndexSide d
                 = mkTreeEntry (idxSha1 (Fixed idx)) (Mode (Fixed idx))
              /\ IndexSize d = uint (Z.of_N (Fsize (Fixed idx))).
Proof.
  exact (DiffFiles_diff_shape (repository true (Some "mtime") shaA) noOptions []
           _ _ eq_refl).
Defined.

Lemma diffEntry_unchanged (c : Client) (idx : IndexEntry) :
  unchanged c idx -> diffEntry c idx = (hashedFile c idx, None).
Proof.
  intros (f & stat & (Hf & Hx & Hl & Hd) & Hs & Hh).
  unfold hashedFile, diffEntry. rewrite Hf, Hx. simpl.
  now rewrite Hl, Hd, Hs, Hh, String.eqb_refl.
Qed.

(** X15: when every listed entry is on disk with the stat metadata and the
    content the index records, [DiffFiles] reports nothing, and it has
    hashed every one of the files to find that out. *)
Theorem DiffFiles_clean (c : Client) (opt : DiffFilesOptions)
        (paths : list File) (entries : list IndexEntry) :
  LsFiles c paths = Val entries ->
  Forall (unchanged c) entries ->
  DiffFiles c opt paths = (flat_map (hashedFile c) entries, Val []).
Proof.
  intros Hls Hall. rewrite (DiffFiles_run c opt paths entries Hls).
  assert (E : events c entries = flat_map (hashedFile c) entries
              /\ emitted c entries = []).
  { clear Hls. unfold events, emitted.
    induction Hall as [|idx rest Hu _ IH]; [now split|].
    destruct IH as [IH1 IH2]. simpl.
    rewrite IH1, IH2, (diffEntry_unchanged c idx Hu). now split. }
  destruct E as [-> ->]. reflexivity.
Qed.

Lemma DiffFiles_clean_witness :
  DiffFiles (repository true None shaA) noOptions [] = ([Hashed "foo"], Val []).
Proof.
  refine (DiffFiles_clean (repository true None shaA) noOptions [] [fooEntry]
            eq_refl _).
  constructor; [|constructor].
  exists "foo", fooStat. now repeat split.
Defined.

(** X16: the mode reported for a file on disk depends on its type bits and
    on the execute bit of its owner only: the other permission bits, the
    execute bits of group and others included, change nothing. *)
Theorem fsMode_type_and_owner_exec (m1 m2 : N) :
  N.land m1 osModeType = N.land m2 osModeType ->
  N.land m1 64 = N.land m2 64 ->
  fsMode m1 = fsMode m2.
Proof.
  intros Ht Hx. unfold fsMode, IsRegular, Perm.
  rewrite <- !N.land_assoc. change (N.land 511 64) with 64%N.
  now rewrite Ht, Hx.
Qed.

Lemma fsMode_type_and_owner_exec_witness :
  fsMode 420 = fsMode 429 /\ fsMode 429 = ModeBlob.
Proof.
  split; [|reflexivity].
  exact (fsMode_type_and_owner_exec 420 429 eq_refl eq_refl).
Defined.

(** ** Commit: the message parameters *)

Lemma gatherMessages_cons (val : string) (rest spare : list string) :
  gatherMessages (val :: rest) spare
  = if messageFlag val then
      match rest with
      | next :: _ =>
          messages <- gatherMessages rest spare ;; Ok (val :: next :: messages)
      | [] =>
          match spare with
          | hidden :: _ => Ok [val; hidden]
          | [] => Panic
          end
      end
    else gatherMessages rest spare.
Proof. reflexivity. Qed.




Lemma flat_map_ext_in {A B : Type} (f g : A -> list B) (l : list A) :
  (forall a, In a l -> f a = g a) -> flat_map f l = flat_map g l.
Proof.
  induction l as [|a l IH]; intros H; simpl; [reflexivity|].
  rewrite (H a) by now left. rewrite IH; [reflexivity|].
  intros b Hb. apply H. now right.
Qed.

(** The parameters gathered from a suffix of the arguments, by the places
    of its flags in the whole backing array. *)
Lemma gatherMessages_suffix (suf spare : list string) :
  forall pre messages,
  gatherMessages suf spare = Ok messages ->
  messages
  = flat_map (fun i => [nth i (pre ++ suf ++ spare)%list "";
                        nth (S i) (pre ++ suf ++ spare)%list ""])
      (filter (fun i => messageFlag (nth i (pre ++ suf ++ spare)%list ""))
              (seq (List.length pre) (List.length suf))).
Proof.
  induction suf as [|val rest IH]; intros pre messages Hg.
  - injection Hg as <-. reflexivity.
  - rewrite gatherMessages_cons in Hg.
    assert (Hall : (pre ++ (val :: rest) ++ spare
                    = (pre ++ [val]) ++ rest ++ spare)%list)
      by now rewrite <- app_assoc.
    assert (Hlen : List.length (pre ++ [val]) = S (List.length pre))
      by (rewrite length_app; simpl; lia).
    remember (pre ++ (val :: rest) ++ spare)%list as all eqn:Eall.
    assert (Hval : nth (List.length pre) all "" = val)
      by (subst all; apply nth_middle).
    assert (Hnext : forall x tl, (rest ++ spare)%list = x :: tl ->
                    nth (S (List.length pre)) all "" = x).
    { intros x tl Hx. rewrite Hall, <- Hlen, Hx. apply nth_middle. }
    assert (IH' : forall ms, gatherMessages rest spare = Ok ms ->
              ms = flat_map (fun i => [nth i all ""; nth (S i) all ""])
                     (filter (fun i => messageFlag (nth i all ""))
                             (seq (S (List.length pre)) (List.length rest)))).
    { intros ms Hms. specialize (IH (pre ++ [val])%list ms Hms).
      now rewrite Hlen, <- Hall in IH. }
    clear IH Eall Hall Hlen.
    cbn [List.length seq filter]. rewrite Hval.
    destruct (messageFlag val) eqn:Ev; [|now apply IH'].
    cbn [flat_map]. rewrite Hval.
    destruct rest as [|next rest2].
    + destruct spare as [|hidden spare']; [discriminate|].
      injection Hg as <-.
      now rewrite (Hnext hidden spare' eq_refl).
    + destruct (gatherMessages (next :: rest2) spare) as [ms| |] eqn:Eg;
        try discriminate.
      cbn [bind] in Hg. injection Hg as <-.
      rewrite (Hnext next (rest2 ++ spare)%list eq_refl).
      rewrite <- (IH' ms eq_refl). reflexivity.
Qed.

Lemma gatherMessages_length (args spare : list string) :
  forall messages,
  gatherMessages args spare = Ok messages ->
  List.length messages = 2 * countFlags args.
Proof.
  unfold countFlags. induction args as [|val rest IH]; intros messages Hg.
  - injection Hg as <-. reflexivity.
  - rewrite gatherMessages_cons in Hg. simpl filter.
    destruct (messageFlag val).
    + destruct rest as [|next rest2].
      * destruct spare; [discriminate|]. injection Hg as <-. reflexivity.
      * destruct (gatherMessages (next :: rest2) spare) as [ms| |];
          try discriminate.
        simpl in Hg. injection Hg as <-.
        specialize (IH ms eq_refl). simpl List.length in *. lia.
    + now apply IH.
Qed.

(** X18: when the loop completes, the gathered parameters are, for every
    place of the arguments holding [-m] or [-F] and in the order of the
    places, the flag and the element that follows it in the backing array:
    the next argument, also when that is itself a flag, or the first spare
    element after the last argument.  They are twice as many as the
    flags. *)
Theorem gatherMessages_pairs (args spare messages : list string) :
  gatherMessages args spare = Ok messages ->
  messages
  = flat_map (fun i => [nth i args ""; nth (S i) (args ++ spare)%list ""])
             (flagPositions args)
  /\ List.length messages = 2 * countFlags args.
Proof.
  intros Hg. split; [|now apply gatherMessages_length with spare].
  rewrite (gatherMessages_suffix args spare [] messages Hg).
  unfold flagPositions. simpl app. simpl List.length.
  assert (Hnth : forall i, In i (seq 0 (List.length args)) ->
                 nth i (args ++ spare)%list "" = nth i args "").
  { intros i Hi. apply in_seq in Hi. apply app_nth1. lia. }
  rewrite (filter_ext_in _ (fun i => messageFlag (nth i args "")));
    [|intros i Hi; now rewrite Hnth].
  apply flat_map_ext_in. intros i Hi. apply filter_In in Hi as [Hi _].
  now rewrite Hnth.
Qed.

Lemma gatherMessages_pairs_witness :
  ["-m"; "-F"; "-F"; "notes"]
  = flat_map (fun i => [nth i ["fix"; "-m"; "-F"] "";
                        nth (S i) (["fix"; "-m"; "-F"] ++ ["notes"])%list ""])
             (flagPositions ["fix"; "-m"; "-F"])
  /\ List.length ["-m"; "-F"; "-F"; "notes"] = 2 * countFlags ["fix"; "-m"; "-F"].
Proof.
  exact (gatherMessages_pairs ["fix"; "-m"; "-F"] ["notes"]
           ["-m"; "-F"; "-F"; "notes"] eq_refl).
Defined.

Lemma gatherMessages_none (args spare : list string) :
  countFlags args = 0 -> gatherMessages args spare = Ok [].
Proof.
  unfold countFlags. induction args as [|val rest IH]; [reflexivity|].
  rewrite gatherMessages_cons. simpl filter.
  destruct (messageFlag val); [discriminate | exact IH].
Qed.

(** X19: arguments other than [-m], [-F] and their parameters are dropped:
    without such a flag, [Commit] does what it does without arguments,
    handing [CommitTree] the parent, if HEAD resolves, and the tree. *)
Theorem Commit_ignores_other_arguments (c : Repository)
        (args spare : list string) :
  countFlags args = 0 ->
  Commit c args spare = Commit c [] []
  /\ commitTreeArgs c args spare
     = Ok (match GetHeadID c with
           | Val parentCommit => ["-p"; parentCommit]
           | Fail _ => []
           end ++ [WriteTree c])%list.
Proof.
  intros H. unfold Commit, commitTreeArgs.
  rewrite (gatherMessages_none args spare H). now split.
Qed.

Lemma Commit_ignores_other_arguments_witness :
  Commit secondCommit ["--amend"; "-a"; "file.go"] [] = Commit secondCommit [] [].
Proof.
  exact (proj1 (Commit_ignores_other_arguments secondCommit
                  ["--amend"; "-a"; "file.go"] [] eq_refl)).
Defined.

(** ** The tree writer and the store *)

Lemma write_subtrees_store
      (rec : store -> string -> list IndexEntry -> option (store * Sha1)) :
  (forall st1 st2 prefix es,
     option_map snd (rec st1 prefix es) = option_map snd (rec st2 prefix es)) ->
  forall names st1 st2 prefix es,
    option_map snd (write_subtrees rec st1 prefix es names)
    = option_map snd (write_subtrees rec st2 prefix es names).
Proof.
  intros Hrec. induction names as [|n names IH]; intros st1 st2 prefix es;
    simpl; [reflexivity|].
  pose proof (Hrec st1 st2 (prefix ++ n ++ "/") (filter (is_under prefix n) es))
    as H.
  destruct (rec st1 (prefix ++ n ++ "/") (filter (is_under prefix n) es))
    as [[s1 id1]|];
  destruct (rec st2 (prefix ++ n ++ "/") (filter (is_under prefix n) es))
    as [[s2 id2]|]; simpl in H; try discriminate; [|reflexivity].
  injection H as ->.
  pose proof (IH s1 s2 prefix es) as H'.
  destruct (write_subtrees rec s1 prefix es names) as [[t1 i1]|];
  destruct (write_subtrees rec s2 prefix es names) as [[t2 i2]|];
    simpl in H'; try discriminate; [|reflexivity].
  injection H' as ->. reflexivity.
Qed.

Lemma write_tree_at_store (fuel : nat) :
  forall st1 st2 prefix es,
    option_map snd (write_tree_at fuel st1 prefix es)
    = option_map snd (write_tree_at fuel st2 prefix es).
Proof.
  induction fuel as [|fuel IH]; intros st1 st2 prefix es; [reflexivity|].
  cbn [write_tree_at].
  pose proof (write_subtrees_store (write_tree_at fuel) IH
                (subtree_names prefix es []) st1 st2 prefix es) as H.
  destruct (write_subtrees (write_tree_at fuel) st1 prefix es
              (subtree_names prefix es [])) as [[s1 t1]|];
  destruct (write_subtrees (write_tree_at fuel) st2 prefix es
              (subtree_names prefix es [])) as [[s2 t2]|];
    simpl in H; try discriminate; [|reflexivity].
  injection H as ->. unfold store_write.
  destruct (store_exists s1 _), (store_exists s2 _); reflexivity.
Qed.

(** The id of the tree written for an index does not depend on what the
    store already holds: the rows of the test may share one client. *)
Lemma tree_writer_store_independent (st1 st2 : store) (prefix : string)
        (es : list IndexEntry) :
  option_map snd (tree_writer st1 prefix es)
  = option_map snd (tree_writer st2 prefix es).
Proof. unfold tree_writer. apply write_tree_at_store. Qed.

(** ** ShowRef: a ref that cannot be read *)

Lemma listRefs_app c opts patterns dir (pre post : list string) :
  forall vals,
  listRefs c opts patterns dir vals (pre ++ post)%list
  = (vals1 <- listRefs c opts patterns dir vals pre ;;
     listRefs c opts patterns dir vals1 post).
Proof.
  induction pre as [|n pre IH]; intros vals; simpl; [reflexivity|].
  rewrite !bind_assoc. apply bind_ext; intros ref.
  rewrite !bind_assoc. apply bind_ext; intros vals1. apply IH.
Qed.

(** X20: every file of [refs/heads] is parsed before it is compared with
    the patterns, so a branch file that cannot be parsed makes [ShowRef]
    fail with that error and return no refs, whether or not a pattern
    selects the branch. *)
Theorem ShowRef_heads_broken_ref (c : Client) (opts : ShowRefOptions)
        (patterns pre post : list string) (n : string)
        (refs : list Ref) (e : error) :
  Verify opts = false -> Heads opts = true -> Dereference opts = false ->
  ReadDir c (GitDirFile c "refs/heads") = Val (pre ++ n :: post)%list ->
  Forall2 (fun m r => parseRef c ("refs/heads/" ++ m) = Ok r) pre refs ->
  parseRef c ("refs/heads/" ++ n) = Err e ->
  ShowRef c opts patterns = Err e.
Proof.
  intros Hv Hh Hd Hr HF He.
  rewrite ShowRef_unfold, Hv. unfold enumerateRefs. rewrite Hh, Hr. simpl.
  rewrite listRefs_app.
  rewrite (listRefs_plain c opts patterns "refs/heads/" pre refs Hd HF).
  cbn [bind listRefs]. rewrite He. reflexivity.
Qed.

Lemma ShowRef_heads_broken_ref_witness :
  ShowRef (repository true None shaA)
    (mkShowRefOptions false false true false false false 0 false "")
    ["no-such-branch"]
  = Ok []
  /\ ShowRef brokenBranch
       (mkShowRefOptions false false true false false false 0 false "")
       ["no-such-branch"]
     = Err "invalid sha1".
Proof.
  split; [reflexivity|].
  refine (ShowRef_heads_broken_ref brokenBranch
            (mkShowRefOptions false false true false false false 0 false "")
            ["no-such-branch"] [] [] "master" [] "invalid sha1"
            eq_refl eq_refl eq_refl eq_refl _ eq_refl).
  constructor.
Defined.

(** ** RefSpec: white space and NUL around a name *)









Lemma take_append_le (j : nat) (a b : string) :
  j <= String.length a -> take j (a ++ b) = take j a.
Proof.
  revert a; induction j as [|j IH]; intros [|c a] H; simpl in *;
    try reflexivity; [lia|].
  rewrite IH; [reflexivity | lia].
Qed.



(** The white space a string starts with is still there, and no longer,
    when something is appended. *)
Lemma leadingSpace_append (r x : string) (k : nat) :
  leadingSpace r = S k ->
  leadingSpace (r ++ x) = S k /\ S k <= String.length r.
Proof.
  destruct r as [|c r]; [discriminate|].
  unfold leadingSpace. cbn [append].
  destruct (asciiSpace c); [intros [= <-]; simpl; split; [reflexivity | lia]|].
  destruct (N_of_ascii c <? 128)%N; [discriminate|].
  change (String c (r ++ x)) with (String c r ++ x).
  destruct (isUnicodeSpace (take 2 (String c r))) eqn:E2.
  - intros [= <-].
    assert (Hl : 2 <= String.length (String c r)).
    { pose proof (isUnicodeSpace_length _ E2) as Hl.
      rewrite length_take in Hl. lia. }
    rewrite (take_append_le 2) by exact Hl. rewrite E2. now split.
  - destruct (isUnicodeSpace (take 3 (String c r))) eqn:E3; [|discriminate].
    intros [= <-].
    assert (Hl : 3 <= String.length (String c r)).
    { pose proof (isUnicodeSpace_length _ E3) as Hl.
      rewrite length_take in Hl.
      destruct (Nat.le_gt_cases 3 (String.length (String c r))) as [H|H];
        [exact H|].
      exfalso. rewrite (take_all 3) in E3 by lia.
      rewrite (take_all 2) in E2 by lia. congruence. }
    rewrite (take_append_le 2), (take_append_le 3) by lia.
    rewrite E2, E3. now split.
Qed.




Lemma leadingSpace_le (s : string) : leadingSpace s <= String.length s.
Proof.
  destruct (leadingSpace s) as [|k] eqn:E; [lia|].
  pose proof (leadingSpace_append s "" k E) as [_ H]. exact H.
Qed.





















